(** * Remote log access client of the diagnostics tool (cmd/logs.go)

    A shallow embedding of the response decoders ([LogList.processResponse],
    [LogPart.processResponse], [parseLogPart]) and of the seekable reader
    ([LogReader.Read], [LogReader.Seek]), with the properties of the
    specification stated over them.

    Conventions.  A Go [string] and a Go [[]byte] are both byte sequences and
    are modelled as [list ascii].  [uint64] and [int64] values are integers
    of [Z] with the wrap-around written out ([wrap64], [to_int64]).  The
    polling loop of [Read] observes a request that another goroutine mutates;
    it is modelled over the sequence of observations the loop makes, with
    fuel, so that a loop which never leaves shows as [None] for every fuel.
    The send on the request channel that comes before the loop blocks until
    the channel takes the request; [LogReader_Read] is the call from its
    entry, send included, and [Read] is the call from the completed send
    on. *)

From Stdlib Require Import ZArith Ascii String List Bool Lia.
Import ListNotations.

Local Open Scope Z_scope.

(** ** Bytes and the library functions the decoders call *)

Definition bytes := list ascii.

(** A byte-string literal. *)
Definition str (s : string) : bytes := list_ascii_of_string s.

Definition byte_eqb (a b : ascii) : bool := Ascii.eqb a b.

Definition newline : ascii := ascii_of_nat 10.
Definition dquote : ascii := ascii_of_nat 34.
Definition percent : ascii := ascii_of_nat 37.

(** Go's [len] as an integer. *)
Definition len {A} (l : list A) : Z := Z.of_nat (length l).

(** [strings.HasPrefix(s, prefix)]. *)
Fixpoint HasPrefix (s prefix : bytes) {struct prefix} : bool :=
  match prefix, s with
  | [], _ => true
  | p :: prefix', c :: s' => byte_eqb c p && HasPrefix s' prefix'
  | _ :: _, [] => false
  end.

(** [bytes.IndexByte(b, c)]: position of the first [c], [None] for Go's -1. *)
Fixpoint IndexByte (b : bytes) (c : ascii) : option nat :=
  match b with
  | [] => None
  | x :: b' => if byte_eqb x c then Some O else option_map S (IndexByte b' c)
  end.

(** [strings.Index(s, sep)]: position of the first occurrence of [sep]. *)
Fixpoint Index (s sep : bytes) : option nat :=
  if HasPrefix s sep then Some O
  else match s with
       | [] => None
       | _ :: s' => option_map S (Index s' sep)
       end.

(** [strings.Split(s, sep)] for a non-empty separator (the two call sites
    pass a newline and the three bytes of " | "): cut at the leftmost
    occurrence and go on after it.  Every cut consumes at least one byte, so
    [length s] rounds are enough. *)
Fixpoint genSplit (fuel : nat) (s sep : bytes) : list bytes :=
  match fuel with
  | O => [s]
  | S fuel' =>
      match Index s sep with
      | None => [s]
      | Some m => firstn m s :: genSplit fuel' (skipn (m + length sep) s) sep
      end
  end.

Definition Split (s sep : bytes) : list bytes := genSplit (length s) s sep.

(** *** Unsigned 64-bit arithmetic *)

Definition two64 : Z := 2 ^ 64.
Definition maxUint64 : Z := two64 - 1.

(** Reduction of an integer to [uint64]. *)
Definition wrap64 (z : Z) : Z := z mod two64.

(** Go's conversion [int64(u)] of a [uint64]: two's complement. *)
Definition to_int64 (u : Z) : Z :=
  let w := wrap64 u in if w <? 2 ^ 63 then w else w - two64.

(** *** strconv.ParseUint(s, 10, 64) *)

Definition isDigit (c : ascii) : bool :=
  let n := nat_of_ascii c in (48 <=? n)%nat && (n <=? 57)%nat.

Definition digitVal (c : ascii) : Z := Z.of_nat (nat_of_ascii c) - 48.

Inductive NumError := ErrSyntax | ErrRange.

(** The smallest number whose product with the base overflows. *)
Definition cutoff : Z := maxUint64 / 10 + 1.

(** The digit loop of [ParseUint] in base 10: a byte that is no digit is a
    syntax error; overflow of [n * 10] or of [n + d] is a range error. *)
Fixpoint ParseUint_loop (s : bytes) (n : Z) : Z + NumError :=
  match s with
  | [] => inl n
  | c :: s' =>
      if isDigit c then
        if cutoff <=? n then inr ErrRange
        else
          let n10 := wrap64 (n * 10) in
          let n1 := wrap64 (n10 + digitVal c) in
          if (n1 <? n10) || (maxUint64 <? n1) then inr ErrRange
          else ParseUint_loop s' n1
      else inr ErrSyntax
  end.

Definition ParseUint (s : bytes) : Z + NumError :=
  match s with
  | [] => inr ErrSyntax
  | _ => ParseUint_loop s 0
  end.

(** Text of the [*strconv.NumError] that [ParseUint] returns, as [%v] prints
    it.  [strconv.Quote] leaves ASCII digits as they are; only strings of
    digits reach this function from [parseLogPart]. *)
Definition NumError_text (num : bytes) (e : NumError) : bytes :=
  str "strconv.ParseUint: parsing " ++ [dquote] ++ num ++ [dquote] ++ str ": "
  ++ match e with
     | ErrSyntax => str "invalid syntax"
     | ErrRange => str "value out of range"
     end.

(** *** Decimal printing of a [uint64] ([%d]) *)

Definition digitChar (d : Z) : ascii := ascii_of_nat (Z.to_nat (48 + d)).

Fixpoint formatBits (fuel : nat) (u : Z) (acc : bytes) : bytes :=
  match fuel with
  | O => acc
  | S fuel' =>
      let acc' := digitChar (u mod 10) :: acc in
      if u <? 10 then acc' else formatBits fuel' (u / 10) acc'
  end.

(** A [uint64] has at most twenty decimal digits. *)
Definition FormatUint (u : Z) : bytes := formatBits 20 u [].

(** [%v] of a [[]string]: the elements between brackets, separated by a
    space. *)
Fixpoint join_space (l : list bytes) : bytes :=
  match l with
  | [] => []
  | [x] => x
  | x :: l' => x ++ str " " ++ join_space l'
  end.

Definition fmt_strings (l : list bytes) : bytes := str "[" ++ join_space l ++ str "]".

(** ** The response decoders *)

(** Modelled from the spec: the constant [successLine] is declared in another
    file of the package; the specification's wire format gives line 1 of a
    list or snippet response as the success marker literal, written SUCCESS
    in its scenarios. *)
Definition successLine : bytes := str "SUCCESS".

(** *** Printed sizes: [MBToGB] and [ByteCount]

    [MBToGB] returns [float64(b) / float64(div)].  [div] is a power of 1024,
    so the division only changes the exponent and is exact; the quotient is
    kept as the fraction of the integer [float64(b)] over [div]. *)

(** The integer that [float64(b)] holds: [b] rounded to 53 significant bits,
    ties to even. *)
Definition float64_of_uint64 (b : Z) : Z :=
  if b <? 2 ^ 53 then b
  else
    let e := Z.log2 b - 52 in
    let m := Z.shiftr b e in
    let r := b mod 2 ^ e in
    let half := 2 ^ (e - 1) in
    let m' := if (half <? r) || ((r =? half) && Z.odd m) then m + 1 else m in
    m' * 2 ^ e.

(** The loop [for n := b / unit; n >= unit; n /= unit] of [MBToGB]; [n] is
    below 2^54, so it runs at most five times. *)
Fixpoint MBToGB_loop (fuel : nat) (n div : Z) (exp : nat) : Z * nat :=
  match fuel with
  | O => (div, exp)
  | S fuel' =>
      if 1024 <=? n then MBToGB_loop fuel' (n / 1024) (wrap64 (div * 1024)) (S exp)
      else (div, exp)
  end.

(** The [float64] result as (numerator, denominator), and the exponent. *)
Definition MBToGB (b : Z) : (Z * Z) * nat :=
  if b <? 1024 then ((float64_of_uint64 b, 1), O)
  else
    let '(div, exp) := MBToGB_loop 6 (b / 1024) 1024 O in
    ((float64_of_uint64 b, float64_of_uint64 div), exp).

(** [%.1f] of a non-negative fraction: one decimal, nearest, ties to even. *)
Definition fmt_1f (x : Z * Z) : bytes :=
  let '(num, den) := x in
  let t := num * 10 in
  let q := t / den in
  let r := t mod den in
  let q' := if (den <? 2 * r) || ((2 * r =? den) && Z.odd q) then q + 1 else q in
  FormatUint (q' / 10) ++ str "." ++ [digitChar (q' mod 10)].

Definition ByteCount (b : Z) : bytes :=
  if b <? 1024 then FormatUint b ++ str "B"
  else
    let '(bGB, exp) := MBToGB b in
    fmt_1f bGB ++ [nth exp (str "KMGTPE") zero] ++ str "B".

(** *** The list decoder *)

Module LogList.

Record Item := mkItem { Filename : bytes; Size : Z; PrintedSize : bytes }.

Record t := mk {
  Success : bool;
  Error : bytes;
  SessionName : bytes;
  List : list Item
}.

Definition set_Error (ll : t) (e : bytes) : t :=
  mk (Success ll) e (SessionName ll) (List ll).

Definition set_Success (ll : t) (b : bool) : t :=
  mk b (Error ll) (SessionName ll) (List ll).

Definition append (ll : t) (it : Item) : t :=
  mk (Success ll) (Error ll) (SessionName ll) (List ll ++ [it]).

(** The loop over [lines[1:]], with its early returns. *)
Fixpoint processLines (ll : t) (lines : list bytes) : t :=
  match lines with
  | [] => set_Success ll true
  | l :: rest =>
      if len l =? 0 then processLines ll rest
      else
        let terms := Split l (str " | ") in
        if negb (len terms =? 2) then
          set_Error ll
            (str "incorrect response line (need to have 2 terms divided by |): " ++ l)
        else
          match ParseUint (nth 1 terms []) with
          | inr _ => set_Error ll (str "incorrect size: " ++ nth 1 terms [])
          | inl size =>
              processLines
                (append ll (mkItem (nth 0 terms []) (to_int64 size) (ByteCount size)))
                rest
          end
  end.

Definition processResponse (ll : t) (result : bytes) (success : bool) : t :=
  if negb success then set_Error ll result
  else
    let lines := Split result [newline] in
    if len lines <? 2 then
      set_Error ll
        (str "incorrect response (length of lines should be at least 2): "
         ++ fmt_strings lines)
    else if negb (HasPrefix (nth 0 lines []) successLine) then
      set_Error ll
        (str "incorrect response (first line needs to be SUCCESS): "
         ++ fmt_strings lines)
    else processLines ll (tl lines).

(** The zero value with the session name, as [processLogList] builds it. *)
Definition new (sessionName : bytes) : t := mk false [] sessionName [].

End LogList.

(** *** The snippet decoder *)

Module LogPart.

Record t := mk {
  Success : bool;
  Error : bytes;
  Lines : list bytes
}.

Definition processResponse (lp : t) (result : bytes) (success : bool) : t :=
  if negb success then mk false result (Lines lp)
  else
    let lines := Split result [newline] in
    let lines :=
      if (1 <=? len lines) && HasPrefix (nth 0 lines []) successLine
      then tl lines else lines in
    mk true (Error lp) lines.

(** The zero value, as [processLogPart] declares it. *)
Definition new : t := mk false [] [].

End LogPart.

(** *** The byte-chunk decoder *)

(** Longest run of digits at the head of [s], and what follows it. *)
Fixpoint span_digits (s : bytes) : bytes * bytes :=
  match s with
  | [] => ([], [])
  | c :: s' =>
      if isDigit c then let '(d, r) := span_digits s' in (c :: d, r)
      else ([], s)
  end.

(** [logReadFirstLine.FindSubmatch(line)] for the anchored expression
    [^SUCCESS: ([0-9]+)-([0-9]+)/([0-9]+)$]: the three groups, or [None]
    when the line does not match.  The separators are no digits, so each
    group is the longest run of digits at its place. *)
Definition logReadFirstLine_FindSubmatch (line : bytes)
  : option (bytes * bytes * bytes) :=
  if HasPrefix line (str "SUCCESS: ") then
    let '(m1, r1) := span_digits (skipn 9 line) in
    match m1, r1 with
    | _ :: _, sep1 :: r1' =>
        if byte_eqb sep1 "-"%char then
          let '(m2, r2) := span_digits r1' in
          match m2, r2 with
          | _ :: _, sep2 :: r2' =>
              if byte_eqb sep2 "/"%char then
                let '(m3, r3) := span_digits r2' in
                match m3, r3 with
                | _ :: _, [] => Some (m1, m2, m3)
                | _, _ => None
                end
              else None
          | _, _ => None
          end
        else None
    | _, _ => None
    end
  else None.

(** Modelled from the spec: the struct [NodeRequest] is declared in another
    file of the package.  These are the fields [logs.go] reads and writes
    (the specification's RemoteRequest: target, isServed, payload, errorText,
    attemptCount); the mutex is held for the whole of [parseLogPart], which
    therefore sees one consistent value of the record. *)
Record NodeRequest := mkNodeRequest {
  url : bytes;
  served : bool;
  response : bytes;
  err : bytes;
  retries : Z
}.

Definition is_empty (s : bytes) : bool :=
  match s with [] => true | _ => false end.

(** The five results: clear, to, total, part, error text. *)
Definition parseLogPart (nodeRequest : NodeRequest) (offset : Z)
  : bool * Z * Z * bytes * bytes :=
  if negb (served nodeRequest) then (false, 0, 0, [], [])
  else
    let clear := 16 <=? retries nodeRequest in
    if negb (is_empty (err nodeRequest)) then (clear, 0, 0, [], err nodeRequest)
    else
      match IndexByte (response nodeRequest) newline with
      | None =>
          (clear, 0, 0, [], str "could not find first line in log part response")
      | Some firstLineEnd =>
          let line := firstn firstLineEnd (response nodeRequest) in
          match logReadFirstLine_FindSubmatch line with
          | None =>
              (clear, 0, 0, [],
               str "first line needs to have format SUCCESS: from-to/total, was ["
               ++ line ++ str "n")
          | Some (m1, m2, m3) =>
              match ParseUint m1 with
              | inr e => (clear, 0, 0, [], str "parsing from: " ++ NumError_text m1 e)
              | inl from =>
                  if negb (from =? offset) then
                    (clear, 0, 0, [],
                     str "Unexpected from " ++ FormatUint from
                     ++ str ", wanted " ++ FormatUint offset)
                  else
                    match ParseUint m2 with
                    | inr e =>
                        (clear, 0, 0, [], str "parsing to: " ++ NumError_text m2 e)
                    | inl to =>
                        match ParseUint m3 with
                        | inr e =>
                            (clear, 0, 0, [],
                             str "parsing total: " ++ NumError_text m3 e)
                        | inl total =>
                            (true, to, total,
                             skipn (S firstLineEnd) (response nodeRequest), [])
                        end
                    end
              end
          end
      end.

(** ** The seekable reader *)

(** [url.QueryEscape]: letters, digits and [-_.~] stay, a space becomes [+],
    every other byte becomes [%XX]. *)
Definition isAlnum (c : ascii) : bool :=
  let n := nat_of_ascii c in
  ((48 <=? n) && (n <=? 57) || (65 <=? n) && (n <=? 90)
   || (97 <=? n) && (n <=? 122))%nat.

Definition shouldEscape (c : ascii) : bool :=
  negb (isAlnum c
        || byte_eqb c "-"%char || byte_eqb c "_"%char
        || byte_eqb c "."%char || byte_eqb c "~"%char).

Definition upperhex (n : nat) : ascii := nth n (str "0123456789ABCDEF") zero.

Fixpoint QueryEscape (s : bytes) : bytes :=
  match s with
  | [] => []
  | c :: s' =>
      (if byte_eqb c " "%char then [ "+"%char ]
       else if shouldEscape c then
         [percent; upperhex (nat_of_ascii c / 16); upperhex (nat_of_ascii c mod 16)]
       else [c])
      ++ QueryEscape s'
  end.

(** The fields of [LogReader] that [Read] and [Seek] use as data.  The
    request channel and the context are the reader's view of the outside and
    appear as the [World] below. *)
Record LogReader := mkLogReader {
  filename : bytes;
  total : Z;
  offset : Z
}.

Definition set_offset (lr : LogReader) (o : Z) : LogReader :=
  mkLogReader (filename lr) (total lr) o.

Definition set_total (lr : LogReader) (t : Z) : LogReader :=
  mkLogReader (filename lr) t (offset lr).

(** A Go [error] as [Read] and [Seek] return it: [nil], the sentinel
    [io.EOF], or the value of [fmt.Errorf(format)] called without operands,
    kept by its format (its text is the format itself when the format holds
    no percent sign). *)
Inductive error :=
| nil_error
| io_EOF
| Errorf (format : bytes).

(** What one round of the polling loop sees: whether [ctx.Done()] is closed,
    and the value of the request that [parseLogPart] reads under the lock.
    The dispatcher writes the request between rounds as it likes, so a
    [World] is any sequence of such observations. *)
Record Observation := mkObservation {
  ctx_done : bool;
  request : NodeRequest
}.

Definition World := nat -> Observation.

(** The effects of a [Read], in program order. *)
Inductive event :=
| EvSubmit (target : bytes)   (* lr.requestChannel <- nodeRequest *)
| EvCtxCheck                  (* the select on ctx.Done() *)
| EvDecode                    (* a call of parseLogPart *)
| EvSleep.                    (* time.Sleep(100 * time.Millisecond) *)

Inductive PollResult :=
| Interrupted
| Cleared (total : Z) (part errStr : bytes).

(** The loop [for nodeRequest != nil]: round [i] first looks at the context,
    then decodes, and sleeps when the decoder did not clear the request.
    [None] means the loop is still running when the fuel is used up. *)
Fixpoint poll (fuel : nat) (w : World) (i : nat) (off : Z)
  : option (PollResult * list event) :=
  match fuel with
  | O => None
  | S fuel' =>
      if ctx_done (w i) then Some (Interrupted, [EvCtxCheck])
      else
        let '(clear, _, total, part, errStr) := parseLogPart (request (w i)) off in
        if clear then Some (Cleared total part errStr, [EvCtxCheck; EvDecode])
        else
          match poll fuel' w (S i) off with
          | None => None
          | Some (r, evs) => Some (r, EvCtxCheck :: EvDecode :: EvSleep :: evs)
          end
  end.

(** Go's [copy(p, part)]: the buffer afterwards and the number of bytes
    copied. *)
Definition copy (p part : bytes) : bytes * Z :=
  let n := Nat.min (length p) (length part) in
  (firstn n part ++ skipn n p, Z.of_nat n).

Record ReadResult := mkReadResult {
  rr_reader : LogReader;   (* the reader after the call *)
  rr_buffer : bytes;       (* the caller's buffer after the call *)
  rr_n : Z;
  rr_err : error;
  rr_events : list event
}.

(** The [url] of the request that [Read] builds. *)
Definition read_target (lr : LogReader) : bytes :=
  str "/logs/read?file=" ++ QueryEscape (filename lr) ++ str "&offset="
  ++ FormatUint (offset lr) ++ [newline].

(** [Read] from the point where the send [lr.requestChannel <- nodeRequest]
    has completed (the effect [EvSubmit]): the loop runs, and what follows
    the loop copies the part.  [None] means that the call has not returned
    within the fuel.  The send itself, which can block, is [send] below, and
    the call from its entry is [LogReader_Read]. *)
Definition Read (fuel : nat) (w : World) (lr : LogReader) (p : bytes)
  : option ReadResult :=
  match poll fuel w O (offset lr) with
  | None => None
  | Some (Interrupted, evs) =>
      Some (mkReadResult lr p 0 (Errorf (str "interrupted"))
              (EvSubmit (read_target lr) :: evs))
  | Some (Cleared total part errStr, evs) =>
      if negb (is_empty errStr) then
        Some (mkReadResult lr p 0 (Errorf errStr) (EvSubmit (read_target lr) :: evs))
      else
        let lr1 := set_total lr total in
        let '(p', copied) := copy p part in
        let lr2 := set_offset lr1 (wrap64 (offset lr1 + copied)) in
        Some (mkReadResult lr2 p' copied
                (if offset lr2 =? total then io_EOF else nil_error)
                (EvSubmit (read_target lr) :: evs))
  end.

(** The request channel as the sending goroutine meets it.  A send blocks
    until the channel takes the value, that is until a receiver is waiting
    or the buffer has room, which is up to the dispatcher at the other end:
    [ch j] tells whether the channel takes the value at moment [j] of the
    wait.  A nil channel, or one nobody receives from, never does. *)
Definition Channel := nat -> bool.

(** [lr.requestChannel <- nodeRequest], waiting from moment [j] on: the
    moment at which the channel takes the request, or [None] when the send
    is still blocked when the fuel is used up.  The send is no [select]:
    it does not look at the context. *)
Fixpoint send (fuel : nat) (ch : Channel) (j : nat) : option nat :=
  match fuel with
  | O => None
  | S fuel' => if ch j then Some j else send fuel' ch (S j)
  end.

(** The call of [LogReader.Read] from its entry: the send, then [Read]
    above.  The result carries the moment at which the send completed. *)
Definition LogReader_Read (fuel : nat) (ch : Channel) (w : World)
    (lr : LogReader) (p : bytes) : option (nat * ReadResult) :=
  match send fuel ch O with
  | None => None
  | Some waited =>
      match Read fuel w lr p with
      | None => None
      | Some res => Some (waited, res)
      end
  end.

Definition SeekStart : Z := 0.
Definition SeekCurrent : Z := 1.
Definition SeekEnd : Z := 2.

(** Addition of two [int64]. *)
Definition int64_add (a b : Z) : Z := to_int64 (a + b).

(** [Seek] returns the new reader, [int64(lr.offset)] and a [nil] error; a
    [whence] outside the three constants leaves the offset as it is. *)
Definition Seek (lr : LogReader) (off : Z) (whence : Z) : LogReader * Z * error :=
  let lr' :=
    if whence =? SeekStart then set_offset lr (wrap64 off)
    else if whence =? SeekCurrent then
      set_offset lr (wrap64 (int64_add (to_int64 (offset lr)) off))
    else if whence =? SeekEnd then
      if 0 <? total lr then
        set_offset lr (wrap64 (int64_add (to_int64 (total lr)) off))
      else set_offset lr 0
    else lr in
  (lr', to_int64 (offset lr'), nil_error).

(** ** Vocabulary of the statements *)

(** The value of a string of decimal digits. *)
Definition decimal_step (n : Z) (c : ascii) : Z := n * 10 + digitVal c.

Definition decimal (s : bytes) : Z := fold_left decimal_step s 0.

Definition digits (s : bytes) : Prop := Forall (fun c => isDigit c = true) s.

(** [s] is a decimal numeral (one digit at least) of the [uint64] [v]. *)
Definition numeral (s : bytes) (v : Z) : Prop :=
  s <> [] /\ digits s /\ decimal s = v /\ v < two64.

(** A first line of the form [SUCCESS: <from>-<to>/<total>]. *)
Definition first_line_format (line f t tt : bytes) : Prop :=
  line = str "SUCCESS: " ++ f ++ str "-" ++ t ++ str "/" ++ tt
  /\ f <> [] /\ digits f /\ t <> [] /\ digits t /\ tt <> [] /\ digits tt.

(** The first component of the decoder's result. *)
Definition clear_of (x : bool * Z * Z * bytes * bytes) : bool :=
  let '(clear, _, _, _, _) := x in clear.

(** [k] rounds of the polling loop that ended in a sleep. *)
Fixpoint rounds (k : nat) : list event :=
  match k with
  | O => []
  | S k' => EvCtxCheck :: EvDecode :: EvSleep :: rounds k'
  end.

Fixpoint count_sleeps (evs : list event) : nat :=
  match evs with
  | [] => O
  | EvSleep :: evs' => S (count_sleeps evs')
  | _ :: evs' => count_sleeps evs'
  end.

(** Every decode has the check of the context right before it. *)
Fixpoint checked_before_decode (evs : list event) : bool :=
  match evs with
  | [] => true
  | EvDecode :: _ => false
  | EvCtxCheck :: EvDecode :: evs' => checked_before_decode evs'
  | _ :: evs' => checked_before_decode evs'
  end.

(** Rounds [0 .. k-1] of the world neither cancel nor clear the request. *)
Definition keeps_polling (w : World) (off : Z) (k : nat) : Prop :=
  forall i, (i < k)%nat ->
    ctx_done (w i) = false
    /\ clear_of (parseLogPart (request (w i)) off) = false.



(** [msg] holds [part] as a contiguous piece. *)
Definition includes (msg part : bytes) : Prop :=
  exists pre post, msg = pre ++ part ++ post.

(** The effects of the round in which the loop leaves. *)
Definition last_round (r : PollResult) : list event :=
  match r with
  | Interrupted => [EvCtxCheck]
  | Cleared _ _ _ => [EvCtxCheck; EvDecode]
  end.

(** The outcomes of a served request that are errors, each with the text
    the decoder gives it.  The expression of the first line lets only digits
    into its groups, so a field is not a number for [ParseUint] exactly when
    it does not fit 64 bits. *)
Inductive decode_error (r : NodeRequest) (off : Z) : bytes -> Prop :=
| remote_error :
    err r <> [] -> decode_error r off (err r)
| missing_first_line :
    err r = [] -> ~ In newline (response r) ->
    decode_error r off (str "could not find first line in log part response")
| malformed_first_line (line rest : bytes) :
    err r = [] -> response r = line ++ newline :: rest -> ~ In newline line ->
    ~ (exists f t u, first_line_format line f t u) ->
    decode_error r off
      (str "first line needs to have format SUCCESS: from-to/total, was ["
       ++ line ++ str "n")
| from_not_numeric (line rest f t u : bytes) :
    err r = [] -> response r = line ++ newline :: rest ->
    first_line_format line f t u -> two64 <= decimal f ->
    decode_error r off (str "parsing from: " ++ NumError_text f ErrRange)
| offset_mismatch (line rest f t u : bytes) :
    err r = [] -> response r = line ++ newline :: rest ->
    first_line_format line f t u -> decimal f < two64 -> decimal f <> off ->
    decode_error r off
      (str "Unexpected from " ++ FormatUint (decimal f)
       ++ str ", wanted " ++ FormatUint off)
| to_not_numeric (line rest f t u : bytes) :
    err r = [] -> response r = line ++ newline :: rest ->
    first_line_format line f t u -> decimal f < two64 -> decimal f = off ->
    two64 <= decimal t ->
    decode_error r off (str "parsing to: " ++ NumError_text t ErrRange)
| total_not_numeric (line rest f t u : bytes) :
    err r = [] -> response r = line ++ newline :: rest ->
    first_line_format line f t u -> decimal f < two64 -> decimal f = off ->
    decimal t < two64 -> two64 <= decimal u ->
    decode_error r off (str "parsing total: " ++ NumError_text u ErrRange).

(** The list record after the decoder has added the entries [its]. *)
Definition add_items (ll : LogList.t) (its : list LogList.Item) : LogList.t :=
  LogList.mk (LogList.Success ll) (LogList.Error ll) (LogList.SessionName ll)
    (LogList.List ll ++ its).

(** A body line that the list decoder accepts, with the entries it adds:
    a blank line, or a filename and the decimal numeral of a 64-bit size
    around the separator. *)
Inductive accepted_line : bytes -> list LogList.Item -> Prop :=
| blank_line : accepted_line [] []
| entry_line (l name field : bytes) (size : Z) :
    l <> [] -> Split l (str " | ") = [name; field] -> numeral field size ->
    accepted_line l [LogList.mkItem name (to_int64 size) (ByteCount size)].

Inductive accepted_lines : list bytes -> list LogList.Item -> Prop :=
| accepted_nil : accepted_lines [] []
| accepted_cons (l : bytes) (ls : list bytes) (its its' : list LogList.Item) :
    accepted_line l its -> accepted_lines ls its' ->
    accepted_lines (l :: ls) (its ++ its').

(** A body line that the list decoder rejects, with the error text. *)
Inductive rejected_line : bytes -> bytes -> Prop :=
| wrong_field_count (l : bytes) :
    l <> [] -> length (Split l (str " | ")) <> 2%nat ->
    rejected_line l
      (str "incorrect response line (need to have 2 terms divided by |): " ++ l)
| wrong_size (l name field : bytes) :
    l <> [] -> Split l (str " | ") = [name; field] ->
    ~ (exists size, numeral field size) ->
    rejected_line l (str "incorrect size: " ++ field).

(** *** Sample readers and worlds *)

Definition sample_reader (tot off : Z) : LogReader :=
  mkLogReader (str "erigon.log") tot off.

Definition unserved : NodeRequest := mkNodeRequest [] false [] [] 0.

(** The served request of the scenario at offset 6, with [n] attempts. *)
Definition last_chunk (n : Z) : NodeRequest :=
  mkNodeRequest [] true (str "SUCCESS: 6-10/10" ++ newline :: str "WXYZ") [] n.

(** Two rounds without an answer, then the request is [r]. *)
Definition served_third_round (r : NodeRequest) : World :=
  fun i => mkObservation false
             (match i with O | S O => unserved | _ => r end).

(** The context is done from the start. *)
Definition cancelled_at_entry : World :=
  fun _ => mkObservation true unserved.

(** A channel that never takes the request: no receiver, no room. *)
Definition never_accepts : Channel := fun _ => false.

(** A channel that takes the request from moment [j] on. *)
Definition accepts_from (j : nat) : Channel := fun i => (j <=? i)%nat.

(** *** Vocabulary of the further properties *)

(** [strings.Join(ls, "\n")]. *)
Fixpoint unlines (ls : list bytes) : bytes :=
  match ls with
  | [] => []
  | [l] => l
  | l :: ls' => l ++ newline :: unlines ls'
  end.

(** The bytes that [url.QueryEscape] lets through or writes. *)
Definition query_safe (c : ascii) : bool :=
  isAlnum c
  || byte_eqb c "-"%char || byte_eqb c "_"%char
  || byte_eqb c "."%char || byte_eqb c "~"%char
  || byte_eqb c "+"%char || byte_eqb c percent.

(** A round of the world that neither cancels nor clears the request. *)
Definition quiet_round (w : World) (off : Z) (i : nat) : Prop :=
  ctx_done (w i) = false
  /\ clear_of (parseLogPart (request (w i)) off) = false.

(** A body line with one entry. *)
Definition sample_entry_line : bytes := str "erigon.log | 2048".

(** ** Lemmas on the library functions *)

Lemma byte_eqb_eq (a b : ascii) : byte_eqb a b = true <-> a = b.
Proof. unfold byte_eqb. apply Ascii.eqb_eq. Qed.

Lemma byte_eqb_refl (a : ascii) : byte_eqb a a = true.
Proof. apply byte_eqb_eq. reflexivity. Qed.

Lemma byte_eqb_neq (a b : ascii) : byte_eqb a b = false <-> a <> b.
Proof. unfold byte_eqb. apply Ascii.eqb_neq. Qed.

Lemma HasPrefix_app (p s : bytes) : HasPrefix (p ++ s) p = true.
Proof.
  induction p as [|c p IH]; simpl; [reflexivity|].
  rewrite byte_eqb_refl. exact IH.
Qed.

Lemma HasPrefix_split (s p : bytes) :
  HasPrefix s p = true -> s = p ++ skipn (length p) s.
Proof.
  revert s. induction p as [|c p IH]; intros s H; simpl in *; [reflexivity|].
  destruct s as [|x s]; [discriminate|].
  apply andb_true_iff in H. destruct H as [Hx Hs].
  apply byte_eqb_eq in Hx. subst x. simpl. f_equal. apply IH. exact Hs.
Qed.

Lemma HasPrefix_shorter (s p q : bytes) :
  HasPrefix s (p ++ q) = true -> HasPrefix s p = true.
Proof.
  revert s. induction p as [|c p IH]; intros s H; simpl in *; [reflexivity|].
  destruct s as [|x s]; [discriminate|].
  apply andb_true_iff in H. destruct H as [Hx Hs].
  rewrite Hx. simpl. apply IH. exact Hs.
Qed.

Lemma IndexByte_first (l rest : bytes) (c : ascii) :
  ~ In c l -> IndexByte (l ++ c :: rest) c = Some (length l).
Proof.
  induction l as [|x l IH]; intros Hn; simpl.
  - rewrite byte_eqb_refl. reflexivity.
  - destruct (byte_eqb x c) eqn:E.
    + apply byte_eqb_eq in E. subst x. exfalso. apply Hn. left. reflexivity.
    + rewrite IH; [reflexivity|]. intros Hin. apply Hn. right. exact Hin.
Qed.

Lemma IndexByte_None (b : bytes) (c : ascii) :
  IndexByte b c = None <-> ~ In c b.
Proof.
  induction b as [|x b IH]; simpl.
  - split; [intros _ H; exact H | reflexivity].
  - destruct (byte_eqb x c) eqn:E.
    + apply byte_eqb_eq in E. subst x. split; [discriminate|].
      intros H. exfalso. apply H. left. reflexivity.
    + apply byte_eqb_neq in E. destruct (IndexByte b c) eqn:Eb; simpl.
      * split; [discriminate|]. intros H. exfalso.
        assert (Hb : ~ In c b) by (intros Hin; apply H; right; exact Hin).
        apply IH in Hb. discriminate.
      * split; [|reflexivity]. intros _ [Hx|Hin]; [exact (E Hx)|].
        destruct IH as [IH1 _]. exact (IH1 eq_refl Hin).
Qed.

Lemma IndexByte_Some (b : bytes) (c : ascii) (k : nat) :
  IndexByte b c = Some k ->
  b = firstn k b ++ c :: skipn (S k) b /\ ~ In c (firstn k b).
Proof.
  revert k. induction b as [|x b IH]; intros k H; simpl in H; [discriminate|].
  destruct (byte_eqb x c) eqn:E.
  - inversion H. subst k. apply byte_eqb_eq in E. subst x. simpl.
    split; [reflexivity | intros F; exact F].
  - destruct (IndexByte b c) as [j|] eqn:Eb; simpl in H; [|discriminate].
    inversion H. subst k. destruct (IH j eq_refl) as [Hb Hn].
    split.
    + simpl. f_equal. exact Hb.
    + simpl. intros [Hx|Hin]; [|exact (Hn Hin)].
      apply byte_eqb_neq in E. exact (E Hx).
Qed.

(** *** Digits and [ParseUint] *)

Lemma cutoff_value : cutoff = 1844674407370955162.
Proof. reflexivity. Qed.

Lemma two64_value : two64 = 18446744073709551616.
Proof. reflexivity. Qed.

Lemma isDigit_val (c : ascii) : isDigit c = true -> 0 <= digitVal c <= 9.
Proof.
  unfold isDigit, digitVal. intros H.
  apply andb_true_iff in H. destruct H as [H1 H2].
  apply Nat.leb_le in H1. apply Nat.leb_le in H2. lia.
Qed.

Lemma decimal_grows (s : bytes) (n : Z) :
  0 <= n -> digits s -> n <= fold_left decimal_step s n.
Proof.
  revert n. induction s as [|c s IH]; intros n Hn Hd; simpl; [lia|].
  inversion Hd as [|? ? Hc Hs]; subst.
  pose proof (isDigit_val c Hc) as Hv.
  assert (H10 : 0 <= decimal_step n c) by (unfold decimal_step; lia).
  specialize (IH _ H10 Hs). unfold decimal_step in *. lia.
Qed.

Ltac unfold_limits := rewrite ?cutoff_value, ?two64_value in *.

Lemma ParseUint_loop_value (s : bytes) (n : Z) :
  0 <= n -> digits s -> fold_left decimal_step s n < two64 ->
  ParseUint_loop s n = inl (fold_left decimal_step s n).
Proof.
  revert n. induction s as [|c s IH]; intros n Hn Hd Hlt; simpl; [reflexivity|].
  inversion Hd as [|? ? Hc Hs]; subst. rewrite Hc.
  pose proof (isDigit_val c Hc) as Hv.
  assert (H10 : 0 <= decimal_step n c) by (unfold decimal_step; lia).
  pose proof (decimal_grows s _ H10 Hs) as Hg. simpl in Hlt.
  assert (Hb : n * 10 + digitVal c < two64) by (unfold decimal_step in *; lia).
  assert (Hc1 : (cutoff <=? n) = false).
  { apply Z.leb_gt. unfold_limits. lia. }
  rewrite Hc1. unfold wrap64, maxUint64.
  rewrite (Z.mod_small (n * 10)) by (unfold_limits; lia).
  rewrite (Z.mod_small (n * 10 + digitVal c)) by (unfold_limits; lia).
  assert (Hc2 : (n * 10 + digitVal c <? n * 10) = false) by (apply Z.ltb_ge; lia).
  assert (Hc3 : (two64 - 1 <? n * 10 + digitVal c) = false) by (apply Z.ltb_ge; lia).
  rewrite Hc2, Hc3. simpl. apply IH; assumption.
Qed.

Lemma ParseUint_loop_range (s : bytes) (n : Z) :
  0 <= n < two64 -> digits s -> two64 <= fold_left decimal_step s n ->
  ParseUint_loop s n = inr ErrRange.
Proof.
  revert n. induction s as [|c s IH]; intros n Hn Hd Hge; simpl in *; [lia|].
  inversion Hd as [|? ? Hc Hs]; subst. rewrite Hc.
  pose proof (isDigit_val c Hc) as Hv.
  destruct (cutoff <=? n) eqn:Hc1; [reflexivity|].
  apply Z.leb_gt in Hc1. unfold wrap64, maxUint64.
  rewrite (Z.mod_small (n * 10)) by (unfold_limits; lia).
  destruct (Z_lt_ge_dec (n * 10 + digitVal c) two64) as [Hlt|Hov].
  - rewrite (Z.mod_small (n * 10 + digitVal c)) by (unfold_limits; lia).
    assert (Hc2 : (n * 10 + digitVal c <? n * 10) = false) by (apply Z.ltb_ge; lia).
    assert (Hc3 : (two64 - 1 <? n * 10 + digitVal c) = false) by (apply Z.ltb_ge; lia).
    rewrite Hc2, Hc3. simpl. apply IH; [lia | assumption | exact Hge].
  - assert (Hm : (n * 10 + digitVal c) mod two64 = n * 10 + digitVal c - two64).
    { symmetry. apply (Z.mod_unique _ _ 1); unfold_limits; lia. }
    rewrite Hm.
    assert (Hc2 : (n * 10 + digitVal c - two64 <? n * 10) = true).
    { apply Z.ltb_lt. unfold_limits. lia. }
    rewrite Hc2. reflexivity.
Qed.

(** [ParseUint] accepts exactly the numerals of [uint64] values. *)
Lemma ParseUint_numeral (s : bytes) (v : Z) :
  numeral s v -> ParseUint s = inl v.
Proof.
  intros (Hne & Hd & Hv & Hlt). unfold ParseUint.
  destruct s as [|c s]; [contradiction|].
  unfold decimal in Hv.
  rewrite ParseUint_loop_value; [rewrite Hv; reflexivity | lia | exact Hd |].
  rewrite Hv. exact Hlt.
Qed.

Lemma ParseUint_overflow (s : bytes) :
  s <> [] -> digits s -> two64 <= decimal s -> ParseUint s = inr ErrRange.
Proof.
  intros Hne Hd Hge. unfold ParseUint. destruct s as [|c s]; [contradiction|].
  apply ParseUint_loop_range; [unfold_limits; lia | assumption | exact Hge].
Qed.

Lemma ParseUint_loop_inv (s : bytes) (n v : Z) :
  0 <= n -> ParseUint_loop s n = inl v ->
  digits s /\ v = fold_left decimal_step s n /\ v < two64 \/ two64 <= n.
Proof.
  revert n. induction s as [|c s IH]; intros n Hn H; simpl in H.
  - inversion H. subst v. destruct (Z_lt_ge_dec n two64); [left|right; lia].
    split; [constructor|]. split; [reflexivity | assumption].
  - destruct (isDigit c) eqn:Hc; [|discriminate].
    pose proof (isDigit_val c Hc) as Hv.
    destruct (cutoff <=? n) eqn:Hc1; [discriminate|].
    apply Z.leb_gt in Hc1. unfold wrap64, maxUint64 in H.
    rewrite (Z.mod_small (n * 10)) in H by (unfold_limits; lia).
    destruct ((n * 10 + digitVal c) mod two64 <? n * 10) eqn:Hc2; [discriminate|].
    destruct (two64 - 1 <? (n * 10 + digitVal c) mod two64) eqn:Hc3; [discriminate|].
    simpl in H. apply Z.ltb_ge in Hc2.
    assert (Hsmall : n * 10 + digitVal c < two64).
    { destruct (Z_lt_ge_dec (n * 10 + digitVal c) two64) as [Hl|Hg]; [exact Hl|].
      exfalso.
      assert (Hm : (n * 10 + digitVal c) mod two64 = n * 10 + digitVal c - two64).
      { symmetry. apply (Z.mod_unique _ _ 1); unfold_limits; lia. }
      rewrite Hm in Hc2. unfold_limits. lia. }
    rewrite (Z.mod_small (n * 10 + digitVal c)) in H by lia.
    apply IH in H; [|lia].
    destruct H as [(Hd & Hval & Hlt)|Hbig]; [|lia].
    left. split; [constructor; assumption|]. split; [exact Hval | exact Hlt].
Qed.

Lemma ParseUint_inv (s : bytes) (v : Z) :
  ParseUint s = inl v -> numeral s v.
Proof.
  unfold ParseUint. destruct s as [|c s]; [discriminate|]. intros H.
  apply ParseUint_loop_inv in H; [|lia].
  destruct H as [(Hd & Hval & Hlt)|Hbig]; [|unfold_limits; lia].
  split; [discriminate|]. split; [exact Hd|]. split; [symmetry; exact Hval | exact Hlt].
Qed.

(** *** The first line of a chunk response *)

Lemma span_digits_app (d r : bytes) :
  digits d -> (forall c r', r = c :: r' -> isDigit c = false) ->
  span_digits (d ++ r) = (d, r).
Proof.
  intros Hd Hr. induction Hd as [|c d Hc Hd IH]; simpl.
  - destruct r as [|x r']; [reflexivity|].
    simpl. rewrite (Hr x r' eq_refl). reflexivity.
  - rewrite Hc, IH. reflexivity.
Qed.

Lemma span_digits_inv (s d r : bytes) :
  span_digits s = (d, r) ->
  s = d ++ r /\ digits d /\ (forall c r', r = c :: r' -> isDigit c = false).
Proof.
  revert d r. induction s as [|x s IH]; intros d r H; simpl in H.
  - inversion H. subst. split; [reflexivity|]. split; [constructor|]. discriminate.
  - destruct (isDigit x) eqn:Hx.
    + destruct (span_digits s) as [d' r'] eqn:E. inversion H. subst.
      destruct (IH d' r eq_refl) as (Hs & Hd & Hr).
      split; [simpl; f_equal; exact Hs|]. split; [constructor; assumption | exact Hr].
    + inversion H. subst. split; [reflexivity|]. split; [constructor|].
      intros c r' Heq. inversion Heq. subst. exact Hx.
Qed.

(** The matcher returns the groups of every line of the format. *)
Lemma FindSubmatch_complete (line f t tt : bytes) :
  first_line_format line f t tt ->
  logReadFirstLine_FindSubmatch line = Some (f, t, tt).
Proof.
  intros (Hl & Hf & Hdf & Ht & Hdt & Htt & Hdtt). subst line.
  unfold logReadFirstLine_FindSubmatch.
  rewrite HasPrefix_app.
  change (skipn 9 (str "SUCCESS: " ++ f ++ str "-" ++ t ++ str "/" ++ tt))
    with (f ++ "-"%char :: t ++ "/"%char :: tt).
  rewrite (span_digits_app f) by
    (try assumption; intros c r' Heq; inversion Heq; reflexivity).
  destruct f as [|f0 f']; [contradiction|].
  rewrite byte_eqb_refl.
  rewrite (span_digits_app t) by
    (try assumption; intros c r' Heq; inversion Heq; reflexivity).
  destruct t as [|t0 t']; [contradiction|].
  rewrite byte_eqb_refl.
  replace tt with (tt ++ []) at 1 by apply app_nil_r.
  rewrite (span_digits_app tt) by (try assumption; discriminate).
  destruct tt as [|u0 u']; [contradiction|]. reflexivity.
Qed.

(** Whatever the matcher returns is a decomposition of the line. *)
Lemma FindSubmatch_sound (line f t tt : bytes) :
  logReadFirstLine_FindSubmatch line = Some (f, t, tt) ->
  first_line_format line f t tt.
Proof.
  unfold logReadFirstLine_FindSubmatch. intros H.
  destruct (HasPrefix line (str "SUCCESS: ")) eqn:Hp; [|discriminate].
  apply HasPrefix_split in Hp.
  change (length (str "SUCCESS: ")) with 9%nat in Hp.
  destruct (span_digits (skipn 9 line)) as [m1 r1] eqn:E1.
  apply span_digits_inv in E1. destruct E1 as (Hs1 & Hd1 & _).
  destruct m1 as [|a1 m1]; [discriminate|].
  destruct r1 as [|sep1 r1]; [discriminate|].
  destruct (byte_eqb sep1 "-"%char) eqn:Hsep1; [|discriminate].
  apply byte_eqb_eq in Hsep1. subst sep1.
  destruct (span_digits r1) as [m2 r2] eqn:E2.
  apply span_digits_inv in E2. destruct E2 as (Hs2 & Hd2 & _).
  destruct m2 as [|a2 m2]; [discriminate|].
  destruct r2 as [|sep2 r2]; [discriminate|].
  destruct (byte_eqb sep2 "/"%char) eqn:Hsep2; [|discriminate].
  apply byte_eqb_eq in Hsep2. subst sep2.
  destruct (span_digits r2) as [m3 r3] eqn:E3.
  apply span_digits_inv in E3. destruct E3 as (Hs3 & Hd3 & _).
  destruct m3 as [|a3 m3]; [discriminate|].
  destruct r3; [|discriminate].
  inversion H. subst f t tt.
  repeat split; try assumption; try discriminate.
  rewrite Hp, Hs1, Hs2, Hs3. rewrite app_nil_r.
  simpl. rewrite <- ?app_assoc. reflexivity.
Qed.

Lemma FindSubmatch_None (line : bytes) :
  logReadFirstLine_FindSubmatch line = None <->
  ~ exists f t tt, first_line_format line f t tt.
Proof.
  split.
  - intros H (f & t & tt & Hfmt).
    apply FindSubmatch_complete in Hfmt. congruence.
  - intros H. destruct (logReadFirstLine_FindSubmatch line) as [[[f t] tt]|] eqn:E;
      [|reflexivity].
    exfalso. apply H. exists f, t, tt. apply FindSubmatch_sound. exact E.
Qed.

(** *** Decimal printing *)

Lemma digitChar_isDigit (d : Z) : 0 <= d <= 9 -> isDigit (digitChar d) = true.
Proof.
  intros H.
  assert (E : d = 0 \/ d = 1 \/ d = 2 \/ d = 3 \/ d = 4 \/ d = 5 \/ d = 6
              \/ d = 7 \/ d = 8 \/ d = 9) by lia.
  repeat (destruct E as [E|E]; [subst d; reflexivity|]). subst d. reflexivity.
Qed.

Lemma formatBits_digits (fuel : nat) (u : Z) (acc : bytes) :
  digits acc -> digits (formatBits fuel u acc).
Proof.
  revert u acc. induction fuel as [|fuel IH]; intros u acc Hacc; simpl; [exact Hacc|].
  assert (Hd : digits (digitChar (u mod 10) :: acc)).
  { constructor; [|exact Hacc]. apply digitChar_isDigit.
    pose proof (Z.mod_pos_bound u 10). lia. }
  destruct (u <? 10); [exact Hd | apply IH; exact Hd].
Qed.

Lemma FormatUint_digits (u : Z) : digits (FormatUint u).
Proof. apply formatBits_digits. constructor. Qed.

Lemma digits_no_percent (s : bytes) : digits s -> ~ In percent s.
Proof.
  intros Hd Hin. unfold digits in Hd. rewrite Forall_forall in Hd.
  apply Hd in Hin. discriminate.
Qed.

(** *** Splitting into lines *)

Lemma Index_byte_None (s : bytes) (c : ascii) :
  ~ In c s -> Index s [c] = None.
Proof.
  induction s as [|x s IH]; intros Hn; simpl; [reflexivity|].
  destruct (byte_eqb x c) eqn:E.
  - apply byte_eqb_eq in E. subst x. exfalso. apply Hn. left. reflexivity.
  - simpl. rewrite IH; [reflexivity|]. intros Hin. apply Hn. right. exact Hin.
Qed.

Lemma Split_one_line (s : bytes) :
  ~ In newline s -> Split s [newline] = [s].
Proof.
  intros Hn. unfold Split. destruct (length s); simpl; [reflexivity|].
  rewrite Index_byte_None by exact Hn. reflexivity.
Qed.

(** *** Machine integers *)

Lemma wrap64_small (x : Z) : 0 <= x < two64 -> wrap64 x = x.
Proof. intros H. unfold wrap64. apply Z.mod_small. exact H. Qed.

Lemma wrap64_range (x : Z) : 0 <= wrap64 x < two64.
Proof. unfold wrap64. apply Z.mod_pos_bound. reflexivity. Qed.

Lemma wrap64_idem (x : Z) : wrap64 (wrap64 x) = wrap64 x.
Proof. apply wrap64_small. apply wrap64_range. Qed.

Lemma to_int64_small (x : Z) : 0 <= x < 2 ^ 63 -> to_int64 x = x.
Proof.
  intros H. unfold to_int64. rewrite wrap64_small by (unfold_limits; lia).
  destruct (x <? 2 ^ 63) eqn:E; [reflexivity|]. apply Z.ltb_ge in E. lia.
Qed.

Lemma to_int64_wrap (x : Z) : to_int64 (wrap64 x) = to_int64 x.
Proof. unfold to_int64. rewrite wrap64_idem. reflexivity. Qed.

Lemma wrap64_to_int64 (x : Z) : wrap64 (to_int64 x) = wrap64 x.
Proof.
  unfold to_int64. pose proof (wrap64_range x) as Hr.
  destruct (wrap64 x <? 2 ^ 63).
  - apply wrap64_idem.
  - unfold wrap64 at 1.
    replace (wrap64 x - two64) with (wrap64 x + (-1) * two64) by lia.
    rewrite Z.mod_add by (unfold_limits; lia).
    apply wrap64_idem.
Qed.

Lemma to_int64_of_int64 (x : Z) : - 2 ^ 63 <= x < 2 ^ 63 -> to_int64 x = x.
Proof.
  intros H. unfold to_int64.
  destruct (Z_lt_ge_dec x 0) as [Hneg|Hpos].
  - assert (Hm : wrap64 x = x + two64).
    { unfold wrap64. symmetry. apply (Z.mod_unique _ _ (-1)); unfold_limits; lia. }
    rewrite Hm. destruct (x + two64 <? 2 ^ 63) eqn:E; [|lia].
    apply Z.ltb_lt in E. unfold_limits. lia.
  - rewrite wrap64_small by (unfold_limits; lia).
    destruct (x <? 2 ^ 63) eqn:E; [reflexivity|]. apply Z.ltb_ge in E. lia.
Qed.

Lemma wrap64_int64_add (u off : Z) :
  wrap64 (int64_add (to_int64 u) off) = wrap64 (u + off).
Proof.
  unfold int64_add. rewrite wrap64_to_int64. unfold wrap64.
  rewrite Z.add_mod by (unfold_limits; lia).
  change ((to_int64 u) mod two64) with (wrap64 (to_int64 u)).
  rewrite wrap64_to_int64. unfold wrap64.
  rewrite <- Z.add_mod by (unfold_limits; lia). reflexivity.
Qed.

(** *** The polling loop *)

Lemma poll_rounds (k fuel : nat) (w : World) (i : nat) (off : Z) :
  (forall j, (j < k)%nat ->
     ctx_done (w (i + j)%nat) = false
     /\ clear_of (parseLogPart (request (w (i + j)%nat)) off) = false) ->
  poll (k + fuel) w i off =
  match poll fuel w (i + k)%nat off with
  | None => None
  | Some (r, evs) => Some (r, rounds k ++ evs)
  end.
Proof.
  revert i. induction k as [|k IH]; intros i H.
  - rewrite Nat.add_0_r. simpl. destruct (poll fuel w i off) as [[r evs]|]; reflexivity.
  - destruct (H O) as [Hc Hp]; [lia|]. rewrite Nat.add_0_r in Hc, Hp.
    change (S k + fuel)%nat with (S (k + fuel)). simpl poll. rewrite Hc.
    destruct (parseLogPart (request (w i)) off) as [[[[c t] tot] part] e].
    simpl in Hp. subst c.
    rewrite (IH (S i)).
    + replace (S i + k)%nat with (i + S k)%nat by lia.
      destruct (poll fuel w (i + S k) off) as [[r evs]|]; reflexivity.
    + intros j Hj. replace (S i + j)%nat with (i + S j)%nat by lia.
      apply H. lia.
Qed.

(** The loop leaves at round [k] when the context is done there. *)
Lemma poll_interrupted (k fuel : nat) (w : World) (off : Z) :
  keeps_polling w off k -> ctx_done (w k) = true -> (k < fuel)%nat ->
  poll fuel w O off = Some (Interrupted, rounds k ++ [EvCtxCheck]).
Proof.
  intros Hk Hc Hf. replace fuel with (k + S (fuel - S k))%nat by lia.
  rewrite poll_rounds by (intros j Hj; apply Hk; exact Hj).
  simpl. rewrite Hc. reflexivity.
Qed.

(** The loop leaves at round [k] when the decoder clears the request there. *)
Lemma poll_cleared (k fuel : nat) (w : World) (off t tot : Z) (part e : bytes) :
  keeps_polling w off k -> ctx_done (w k) = false ->
  parseLogPart (request (w k)) off = (true, t, tot, part, e) -> (k < fuel)%nat ->
  poll fuel w O off = Some (Cleared tot part e, rounds k ++ [EvCtxCheck; EvDecode]).
Proof.
  intros Hk Hc Hp Hf. replace fuel with (k + S (fuel - S k))%nat by lia.
  rewrite poll_rounds by (intros j Hj; apply Hk; exact Hj).
  simpl. rewrite Hc, Hp. reflexivity.
Qed.

(** The effects of every loop that leaves: whole rounds, then the last. *)
Lemma poll_events (fuel : nat) (w : World) (i : nat) (off : Z)
      (r : PollResult) (evs : list event) :
  poll fuel w i off = Some (r, evs) ->
  exists k, evs = rounds k ++ last_round r.
Proof.
  revert i r evs. induction fuel as [|fuel IH]; intros i r evs H; simpl in H;
    [discriminate|].
  destruct (ctx_done (w i)).
  - inversion H. subst. exists O. reflexivity.
  - destruct (parseLogPart (request (w i)) off) as [[[[c t] tot] part] e].
    destruct c.
    + inversion H. subst. exists O. reflexivity.
    + destruct (poll fuel w (S i) off) as [[r' evs']|] eqn:E; [|discriminate].
      inversion H. subst. destruct (IH _ _ _ E) as [k Hk].
      exists (S k). simpl. rewrite Hk. reflexivity.
Qed.

Lemma rounds_checked (k : nat) (tail : list event) :
  checked_before_decode (rounds k ++ tail) = checked_before_decode tail.
Proof. induction k as [|k IH]; simpl; [reflexivity | exact IH]. Qed.

Lemma rounds_sleeps (k : nat) (tail : list event) :
  count_sleeps (rounds k ++ tail) = (k + count_sleeps tail)%nat.
Proof. induction k as [|k IH]; simpl; [reflexivity | rewrite IH; reflexivity]. Qed.




(** *** The decoder on a response with a first line *)

Lemma firstn_app_exact {A} (l r : list A) : firstn (length l) (l ++ r) = l.
Proof. induction l as [|x l IH]; simpl; [destruct r; reflexivity | rewrite IH; reflexivity]. Qed.

Lemma skipn_app_next {A} (l r : list A) (c : A) : skipn (S (length l)) (l ++ c :: r) = r.
Proof. induction l as [|x l IH]; simpl; [reflexivity | exact IH]. Qed.

Lemma digits_no_newline (s : bytes) : digits s -> ~ In newline s.
Proof.
  intros Hd Hin. unfold digits in Hd. rewrite Forall_forall in Hd.
  apply Hd in Hin. discriminate.
Qed.

Lemma first_line_no_newline (line f t u : bytes) :
  first_line_format line f t u -> ~ In newline line.
Proof.
  intros (Hl & _ & Hf & _ & Ht & _ & Hu) Hin. subst line.
  repeat (apply in_app_or in Hin; destruct Hin as [Hin|Hin]);
    try (revert Hin; apply digits_no_newline; assumption);
    simpl in Hin; repeat (destruct Hin as [Hin|Hin]; [discriminate|]); exact Hin.
Qed.

(** What the decoder does once the first line is cut off. *)
Lemma parseLogPart_line (r : NodeRequest) (off : Z) (line rest : bytes) :
  served r = true -> err r = [] ->
  response r = line ++ newline :: rest -> ~ In newline line ->
  parseLogPart r off =
  let clear := 16 <=? retries r in
  match logReadFirstLine_FindSubmatch line with
  | None =>
      (clear, 0, 0, [],
       str "first line needs to have format SUCCESS: from-to/total, was ["
       ++ line ++ str "n")
  | Some (m1, m2, m3) =>
      match ParseUint m1 with
      | inr e => (clear, 0, 0, [], str "parsing from: " ++ NumError_text m1 e)
      | inl from =>
          if negb (from =? off) then
            (clear, 0, 0, [],
             str "Unexpected from " ++ FormatUint from
             ++ str ", wanted " ++ FormatUint off)
          else
            match ParseUint m2 with
            | inr e => (clear, 0, 0, [], str "parsing to: " ++ NumError_text m2 e)
            | inl to =>
                match ParseUint m3 with
                | inr e => (clear, 0, 0, [], str "parsing total: " ++ NumError_text m3 e)
                | inl total => (true, to, total, rest, [])
                end
            end
      end
  end.
Proof.
  intros Hs He Hr Hn. unfold parseLogPart. rewrite Hs, He, Hr. simpl negb. cbv iota.
  simpl is_empty. cbv iota.
  rewrite IndexByte_first by exact Hn.
  rewrite firstn_app_exact, skipn_app_next. reflexivity.
Qed.

Lemma numeral_of_digits (s : bytes) :
  s <> [] -> digits s -> decimal s < two64 -> numeral s (decimal s).
Proof. intros Hne Hd Hlt. repeat split; assumption. Qed.

Lemma parseLogPart_error (r : NodeRequest) (off : Z) (e : bytes) :
  served r = true -> decode_error r off e ->
  parseLogPart r off = (16 <=? retries r, 0, 0, [], e) /\ e <> [].
Proof.
  intros Hs H. destruct H as
    [He | He Hn | line rest He Hr Hn Hf | line rest f t u He Hr Hf Hv
     | line rest f t u He Hr Hf Hv Hm | line rest f t u He Hr Hf Hv Hm Ht
     | line rest f t u He Hr Hf Hv Hm Ht Hu].
  - split; [|exact He]. unfold parseLogPart. rewrite Hs. simpl.
    destruct (err r); [contradiction | reflexivity].
  - split; [|discriminate]. unfold parseLogPart. rewrite Hs, He. simpl.
    apply IndexByte_None in Hn. rewrite Hn. reflexivity.
  - split; [|discriminate]. rewrite (parseLogPart_line r off line rest) by assumption.
    apply FindSubmatch_None in Hf. rewrite Hf. reflexivity.
  - split; [|discriminate].
    rewrite (parseLogPart_line r off line rest)
      by (try assumption; apply (first_line_no_newline _ _ _ _ Hf)).
    rewrite (FindSubmatch_complete _ _ _ _ Hf).
    destruct Hf as (_ & Hf1 & Hf2 & _). simpl.
    rewrite ParseUint_overflow by assumption. reflexivity.
  - split; [|discriminate].
    rewrite (parseLogPart_line r off line rest)
      by (try assumption; apply (first_line_no_newline _ _ _ _ Hf)).
    rewrite (FindSubmatch_complete _ _ _ _ Hf).
    destruct Hf as (_ & Hf1 & Hf2 & _). simpl.
    rewrite (ParseUint_numeral f (decimal f)) by (apply numeral_of_digits; assumption).
    apply Z.eqb_neq in Hm. rewrite Hm. reflexivity.
  - split; [|discriminate].
    rewrite (parseLogPart_line r off line rest)
      by (try assumption; apply (first_line_no_newline _ _ _ _ Hf)).
    rewrite (FindSubmatch_complete _ _ _ _ Hf).
    destruct Hf as (_ & Hf1 & Hf2 & Ht1 & Ht2 & _). simpl.
    rewrite (ParseUint_numeral f (decimal f)) by (apply numeral_of_digits; assumption).
    rewrite Hm, Z.eqb_refl. simpl.
    rewrite ParseUint_overflow by assumption. reflexivity.
  - split; [|discriminate].
    rewrite (parseLogPart_line r off line rest)
      by (try assumption; apply (first_line_no_newline _ _ _ _ Hf)).
    rewrite (FindSubmatch_complete _ _ _ _ Hf).
    destruct Hf as (_ & Hf1 & Hf2 & Ht1 & Ht2 & Hu1 & Hu2). simpl.
    rewrite (ParseUint_numeral f (decimal f)) by (apply numeral_of_digits; assumption).
    rewrite Hm, Z.eqb_refl. simpl.
    rewrite (ParseUint_numeral t (decimal t)) by (apply numeral_of_digits; assumption).
    rewrite ParseUint_overflow by assumption. reflexivity.
Qed.

(** A served request is either one of the errors above or a valid chunk. *)
Lemma parseLogPart_served (r : NodeRequest) (off : Z) :
  served r = true ->
  (exists e, decode_error r off e)
  \/ (exists line rest f t u to tot,
        err r = [] /\ response r = line ++ newline :: rest
        /\ first_line_format line f t u
        /\ numeral f off /\ numeral t to /\ numeral u tot).
Proof.
  intros Hs. destruct (err r) as [|e0 e'] eqn:He.
  2:{ left. exists (err r). apply remote_error. rewrite He. discriminate. }
  destruct (IndexByte (response r) newline) as [k|] eqn:Hi.
  2:{ left. eexists. apply missing_first_line; [exact He|].
      apply IndexByte_None. exact Hi. }
  apply IndexByte_Some in Hi. destruct Hi as [Hr Hn].
  set (line := firstn k (response r)) in *.
  set (rest := skipn (S k) (response r)) in *.
  destruct (logReadFirstLine_FindSubmatch line) as [[[f t] u]|] eqn:Hm.
  2:{ left. eexists. apply (malformed_first_line r off line rest); try assumption.
      apply FindSubmatch_None. exact Hm. }
  apply FindSubmatch_sound in Hm.
  pose proof Hm as (_ & Hf1 & Hf2 & Ht1 & Ht2 & Hu1 & Hu2).
  destruct (Z_lt_ge_dec (decimal f) two64) as [Hf|Hf].
  2:{ left. eexists. apply (from_not_numeric r off line rest f t u); try assumption. lia. }
  destruct (Z.eq_dec (decimal f) off) as [Hfo|Hfo].
  2:{ left. eexists. apply (offset_mismatch r off line rest f t u); assumption. }
  destruct (Z_lt_ge_dec (decimal t) two64) as [Ht|Ht].
  2:{ left. eexists. apply (to_not_numeric r off line rest f t u); try assumption. lia. }
  destruct (Z_lt_ge_dec (decimal u) two64) as [Hu|Hu].
  2:{ left. eexists. apply (total_not_numeric r off line rest f t u); try assumption. lia. }
  right. exists line, rest, f, t, u, (decimal t), (decimal u).
  split; [reflexivity|]. split; [exact Hr|]. split; [exact Hm|].
  split; [rewrite <- Hfo|split]; apply numeral_of_digits; assumption.
Qed.

Lemma parseLogPart_chunk (r : NodeRequest) (off to tot : Z) (line rest f t u : bytes) :
  served r = true -> err r = [] -> response r = line ++ newline :: rest ->
  first_line_format line f t u ->
  numeral f off -> numeral t to -> numeral u tot ->
  parseLogPart r off = (true, to, tot, rest, []).
Proof.
  intros Hs He Hr Hfmt Hf Ht Hu.
  rewrite (parseLogPart_line r off line rest)
    by (try assumption; apply (first_line_no_newline _ _ _ _ Hfmt)).
  rewrite (FindSubmatch_complete _ _ _ _ Hfmt). simpl.
  rewrite (ParseUint_numeral f off) by exact Hf.
  rewrite Z.eqb_refl. simpl.
  rewrite (ParseUint_numeral t to) by exact Ht.
  rewrite (ParseUint_numeral u tot) by exact Hu.
  reflexivity.
Qed.

(** *** The fuel of [Split] and of [FormatUint] is enough *)

Lemma Index_nil (sep : bytes) : sep <> [] -> Index [] sep = None.
Proof. intros H. destruct sep; [contradiction | reflexivity]. Qed.

Lemma genSplit_fuel (sep : bytes) (f1 f2 : nat) (s : bytes) :
  sep <> [] -> (length s <= f1)%nat -> (length s <= f2)%nat ->
  genSplit f1 s sep = genSplit f2 s sep.
Proof.
  intros Hsep. revert f2 s. induction f1 as [|f1 IH]; intros f2 s H1 H2.
  - destruct s; [|simpl in H1; lia].
    destruct f2; cbn [genSplit]; [reflexivity|].
    rewrite Index_nil by exact Hsep. reflexivity.
  - destruct f2 as [|f2].
    + destruct s; [|simpl in H2; lia].
      cbn [genSplit]. rewrite Index_nil by exact Hsep. reflexivity.
    + cbn [genSplit]. destruct (Index s sep) as [m|]; [|reflexivity].
      f_equal. assert (Hl : (1 <= length sep)%nat).
      { destruct sep; [contradiction | simpl; lia]. }
      apply IH; rewrite length_skipn; lia.
Qed.

(** More fuel than [length s] gives the same pieces. *)
Lemma Split_fuel (sep s : bytes) (fuel : nat) :
  sep <> [] -> (length s <= fuel)%nat -> genSplit fuel s sep = Split s sep.
Proof. intros Hsep Hf. unfold Split. apply genSplit_fuel; [exact Hsep | exact Hf | lia]. Qed.

Lemma digitVal_digitChar (d : Z) : 0 <= d <= 9 -> digitVal (digitChar d) = d.
Proof.
  intros H.
  assert (E : d = 0 \/ d = 1 \/ d = 2 \/ d = 3 \/ d = 4 \/ d = 5 \/ d = 6
              \/ d = 7 \/ d = 8 \/ d = 9) by lia.
  repeat (destruct E as [E|E]; [subst d; reflexivity|]). subst d. reflexivity.
Qed.

Lemma formatBits_value (fuel : nat) (u : Z) (acc : bytes) :
  0 <= u < 10 ^ Z.of_nat fuel ->
  fold_left decimal_step (formatBits fuel u acc) 0 = fold_left decimal_step acc u.
Proof.
  revert u acc. induction fuel as [|fuel IH]; intros u acc Hu.
  - simpl in Hu. assert (u = 0) by lia. subst u. reflexivity.
  - simpl formatBits. pose proof (Z.mod_pos_bound u 10 ltac:(lia)) as Hm.
    destruct (u <? 10) eqn:E.
    + apply Z.ltb_lt in E. rewrite Z.mod_small by lia.
      simpl. unfold decimal_step at 2. rewrite digitVal_digitChar by lia. reflexivity.
    + apply Z.ltb_ge in E. rewrite IH.
      * simpl. unfold decimal_step at 2. rewrite digitVal_digitChar by lia.
        f_equal. pose proof (Z.div_mod u 10 ltac:(lia)). lia.
      * rewrite Nat2Z.inj_succ, Z.pow_succ_r in Hu by lia.
        split; [apply Z.div_pos; lia | apply Z.div_lt_upper_bound; lia].
Qed.

Lemma formatBits_nonempty (fuel : nat) (u : Z) (acc : bytes) :
  formatBits (S fuel) u acc <> [].
Proof.
  revert u acc. induction fuel as [|fuel IH]; intros u acc.
  - simpl. destruct (u <? 10); discriminate.
  - change (formatBits (S (S fuel)) u acc)
      with (if u <? 10 then digitChar (u mod 10) :: acc
            else formatBits (S fuel) (u / 10) (digitChar (u mod 10) :: acc)).
    destruct (u <? 10); [discriminate | apply IH].
Qed.

(** [%d] prints a numeral that [ParseUint] reads back. *)
Lemma ParseUint_FormatUint (u : Z) :
  0 <= u < two64 -> ParseUint (FormatUint u) = inl u.
Proof.
  intros Hu. apply ParseUint_numeral. unfold numeral.
  split; [apply formatBits_nonempty|]. split; [apply FormatUint_digits|].
  split; [|lia]. unfold decimal, FormatUint.
  rewrite formatBits_value; [reflexivity|].
  unfold_limits. change (10 ^ Z.of_nat 20) with 100000000000000000000. lia.
Qed.

(** *** The scenarios of the specification *)

Example ByteCount_samples :
  ByteCount 1023 = str "1023B" /\ ByteCount 1024 = str "1.0KB"
  /\ ByteCount 1536 = str "1.5KB" /\ ByteCount 2048 = str "2.0KB"
  /\ ByteCount 1572864 = str "1.5MB".
Proof. repeat split; reflexivity. Qed.

Example list_scenario :
  LogList.processResponse (LogList.new (str "node"))
    (str "SUCCESS" ++ newline :: str "erigon.log | 2048" ++ [newline]) true
  = LogList.mk true [] (str "node")
      [LogList.mkItem (str "erigon.log") 2048 (str "2.0KB")].
Proof. reflexivity. Qed.

Example snippet_scenario :
  LogPart.processResponse LogPart.new (str "SUCCESS") true = LogPart.mk true [] []
  /\ LogPart.processResponse LogPart.new
       (str "SUCCESS" ++ newline :: str "first" ++ newline :: newline :: str "last") true
     = LogPart.mk true [] [str "first"; []; str "last"].
Proof. split; reflexivity. Qed.

Example chunk_scenario :
  parseLogPart
    (mkNodeRequest [] true (str "SUCCESS: 0-4/10" ++ newline :: str "ABCD") [] 0) 0
  = (true, 4, 10, str "ABCD", []).
Proof. reflexivity. Qed.

(** ** The byte-chunk decoder: claims C1, C3 and C4 *)

(** C1.  A served request without error text whose response is the line
    [SUCCESS: <from>-<to>/<total>], a newline and the payload, the three
    fields being decimal numerals of unsigned 64-bit values and [<from>] the
    numeral of the requested offset, decodes to: clear = true whatever the
    attempt count, the reported [<to>] and [<total>], the bytes after the
    newline as the payload, and an empty error text. *)
Theorem parseLogPart_valid_chunk
    (r : NodeRequest) (off to tot : Z) (f t u payload : bytes) :
  served r = true -> err r = [] ->
  response r
  = str "SUCCESS: " ++ f ++ str "-" ++ t ++ str "/" ++ u ++ newline :: payload ->
  numeral f off -> numeral t to -> numeral u tot ->
  parseLogPart r off = (true, to, tot, payload, []).
Proof.
  intros Hs He Hr Hf Ht Hu.
  apply (parseLogPart_chunk r off to tot
           (str "SUCCESS: " ++ f ++ str "-" ++ t ++ str "/" ++ u) payload f t u);
    try assumption.
  - rewrite Hr. rewrite <- ?app_assoc. reflexivity.
  - destruct Hf as (Hf1 & Hf2 & _), Ht as (Ht1 & Ht2 & _), Hu as (Hu1 & Hu2 & _).
    repeat split; assumption.
Qed.

Ltac numeral_by_computation :=
  repeat split; try discriminate; try (repeat constructor); reflexivity.

Lemma parseLogPart_valid_chunk_witness :
  parseLogPart
    (mkNodeRequest [] true (str "SUCCESS: 6-10/10" ++ newline :: str "WXYZ") [] 40) 6
  = (true, 10, 10, str "WXYZ", []).
Proof.
  apply (parseLogPart_valid_chunk _ 6 10 10 (str "6") (str "10") (str "10") (str "WXYZ"));
    try reflexivity; numeral_by_computation.
Defined.

(** C3.  For a served request whose outcome is an error (error text set, no
    first line, a first line that is not of the format, a field that is no
    64-bit number, or a reported offset other than the requested one) the
    decoder returns that error with zero values and no payload, and the clear
    flag is true if and only if the attempt count is 16 or more; a served
    request for which the decoder returns an error text is always one of
    these outcomes. *)
Theorem parseLogPart_error_gated_by_ceiling (r : NodeRequest) (off : Z) :
  served r = true ->
  (forall e, decode_error r off e ->
     parseLogPart r off = (16 <=? retries r, 0, 0, [], e) /\ e <> [])
  /\ (forall clear to tot part e,
        parseLogPart r off = (clear, to, tot, part, e) -> e <> [] ->
        decode_error r off e /\ (clear = true <-> 16 <= retries r)).
Proof.
  intros Hs. split.
  - intros e He. apply parseLogPart_error; assumption.
  - intros clear to tot part e Hp Hne.
    destruct (parseLogPart_served r off Hs) as
      [[e' He']|(line & rest & f & t & u & to' & tot' & He & Hr & Hfmt & Hf & Ht & Hu)].
    + destruct (parseLogPart_error r off e' Hs He') as [Hp' _].
      rewrite Hp' in Hp. inversion Hp. subst. split; [exact He'|].
      apply Z.leb_le.
    + rewrite (parseLogPart_chunk r off to' tot' line rest f t u) in Hp by assumption.
      inversion Hp. subst. contradiction.
Qed.

Lemma parseLogPart_error_gated_by_ceiling_witness :
  parseLogPart (mkNodeRequest [] true [] (str "connection refused") 15) 0
  = (false, 0, 0, [], str "connection refused")
  /\ parseLogPart (mkNodeRequest [] true [] (str "connection refused") 16) 0
     = (true, 0, 0, [], str "connection refused").
Proof.
  split.
  - apply (proj1 (parseLogPart_error_gated_by_ceiling
                    (mkNodeRequest [] true [] (str "connection refused") 15) 0 eq_refl)
                 (str "connection refused")).
    apply remote_error. discriminate.
  - apply (proj1 (parseLogPart_error_gated_by_ceiling
                    (mkNodeRequest [] true [] (str "connection refused") 16) 0 eq_refl)
                 (str "connection refused")).
    apply remote_error. discriminate.
Defined.

(** ** The reader: claims C2, C4, C5 and C7 *)

Lemma Read_of_poll (fuel : nat) (w : World) (lr : LogReader) (p : bytes)
      (r : PollResult) (evs : list event) :
  poll fuel w O (offset lr) = Some (r, evs) ->
  exists res, Read fuel w lr p = Some res
              /\ rr_events res = EvSubmit (read_target lr) :: evs.
Proof.
  intros H. unfold Read. rewrite H. destruct r as [|tot part e].
  - eexists. split; reflexivity.
  - destruct (negb (is_empty e)).
    + eexists. split; reflexivity.
    + unfold copy. eexists. split; reflexivity.
Qed.

Lemma Read_events (fuel : nat) (w : World) (lr : LogReader) (p : bytes)
      (res : ReadResult) :
  Read fuel w lr p = Some res ->
  exists k last,
    rr_events res = EvSubmit (read_target lr) :: rounds k ++ last
    /\ (last = [EvCtxCheck] \/ last = [EvCtxCheck; EvDecode]).
Proof.
  intros H. destruct (poll fuel w O (offset lr)) as [[r evs]|] eqn:Hp.
  - destruct (Read_of_poll fuel w lr p r evs Hp) as [res' [Hr Hev]].
    rewrite Hr in H. inversion H. subst res'.
    destruct (poll_events _ _ _ _ _ _ Hp) as [k Hk].
    exists k, (last_round r). split; [rewrite Hev, Hk; reflexivity|].
    destruct r; [left | right]; reflexivity.
  - unfold Read in H. rewrite Hp in H. discriminate.
Qed.

(** A [Read] that returns an error built by [fmt.Errorf] has changed
    neither the reader nor the buffer. *)
Lemma Read_error_keeps_reader (fuel : nat) (w : World) (lr : LogReader) (p : bytes)
      (res : ReadResult) (m : bytes) :
  Read fuel w lr p = Some res -> rr_err res = Errorf m ->
  rr_reader res = lr /\ rr_buffer res = p /\ rr_n res = 0.
Proof.
  unfold Read. intros H He.
  destruct (poll fuel w O (offset lr)) as [[r evs]|]; [|discriminate].
  destruct r as [|tot part e].
  - inversion H. subst res. simpl. repeat split.
  - destruct (negb (is_empty e)).
    + inversion H. subst res. simpl. repeat split.
    + unfold copy in H. inversion H. subst res. simpl in He.
      destruct (_ =? _) in He; discriminate.
Qed.

(** C2.  When round [k] is the first in which the decoder clears the request
    and it reports success with total [T] and payload [P] (no round before
    it cancelled), [Read] copies the first min(len(p), len(P)) bytes of [P]
    into the buffer, sets the total to [T], adds the copied count to the
    offset (in [uint64]) and returns the count; the error is [io.EOF] if and
    only if the new offset equals [T], and [nil] otherwise. *)
Theorem Read_delivers_chunk
    (w : World) (lr : LogReader) (p P : bytes) (k fuel : nat) (to T : Z) :
  keeps_polling w (offset lr) k -> ctx_done (w k) = false ->
  parseLogPart (request (w k)) (offset lr) = (true, to, T, P, []) ->
  (k < fuel)%nat ->
  exists res,
    Read fuel w lr p = Some res
    /\ rr_n res = Z.min (len p) (len P)
    /\ rr_buffer res
       = firstn (Z.to_nat (rr_n res)) P ++ skipn (Z.to_nat (rr_n res)) p
    /\ total (rr_reader res) = T
    /\ offset (rr_reader res) = wrap64 (offset lr + rr_n res)
    /\ (0 <= offset lr -> offset lr + rr_n res < two64 ->
        offset (rr_reader res) = offset lr + rr_n res)
    /\ filename (rr_reader res) = filename lr
    /\ (rr_err res = io_EOF <-> offset (rr_reader res) = T)
    /\ (rr_err res = io_EOF \/ rr_err res = nil_error).
Proof.
  intros Hk Hc Hp Hf. unfold Read.
  rewrite (poll_cleared k fuel w (offset lr) to T P [] Hk Hc Hp Hf).
  simpl negb. cbv iota. unfold copy.
  eexists. split; [reflexivity|]. simpl.
  assert (Hn : Z.of_nat (Nat.min (length p) (length P)) = Z.min (len p) (len P)).
  { unfold len. apply Nat2Z.inj_min. }
  split; [exact Hn|]. rewrite Nat2Z.id.
  split; [reflexivity|]. split; [reflexivity|]. split; [reflexivity|].
  split.
  { intros H0 Hlt. apply wrap64_small. lia. }
  split; [reflexivity|].
  destruct (wrap64 (offset lr + Z.of_nat (Nat.min (length p) (length P))) =? T) eqn:E.
  - apply Z.eqb_eq in E. split; [|left; reflexivity]. split; intros _; [exact E | reflexivity].
  - apply Z.eqb_neq in E. split; [|right; reflexivity].
    split; [discriminate | intros H; contradiction].
Qed.

Lemma keeps_polling_two (r : NodeRequest) (off : Z) :
  keeps_polling (served_third_round r) off 2.
Proof.
  intros i Hi. destruct i as [|[|i]]; [split; reflexivity | split; reflexivity | lia].
Defined.

Lemma Read_delivers_chunk_witness :
  exists res,
    Read 5 (served_third_round (last_chunk 0)) (sample_reader 0 6) (str "..........")
    = Some res
    /\ rr_n res = 4
    /\ rr_buffer res
       = firstn (Z.to_nat (rr_n res)) (str "WXYZ")
         ++ skipn (Z.to_nat (rr_n res)) (str "..........")
    /\ total (rr_reader res) = 10
    /\ offset (rr_reader res) = wrap64 (6 + rr_n res)
    /\ (0 <= 6 -> 6 + rr_n res < two64 -> offset (rr_reader res) = 6 + rr_n res)
    /\ filename (rr_reader res) = str "erigon.log"
    /\ (rr_err res = io_EOF <-> offset (rr_reader res) = 10)
    /\ (rr_err res = io_EOF \/ rr_err res = nil_error).
Proof.
  apply (Read_delivers_chunk (served_third_round (last_chunk 0)) (sample_reader 0 6)
           (str "..........") (str "WXYZ") 2 5 10 10).
  - apply keeps_polling_two.
  - reflexivity.
  - reflexivity.
  - lia.
Defined.

Lemma no_percent_app (a b : bytes) :
  ~ In percent a -> ~ In percent b -> ~ In percent (a ++ b).
Proof.
  intros Ha Hb Hin. apply in_app_or in Hin. destruct Hin; [apply Ha | apply Hb]; assumption.
Qed.

Ltac no_percent_literal :=
  let H := fresh in
  intros H; simpl in H; repeat (destruct H as [H|H]; [discriminate|]); exact H.

(** C4.  A served response with a first line of the format whose [<from>]
    is a 64-bit number other than the requested offset is an error: the
    decoder returns the text [Unexpected from <from>, wanted <offset>], which
    names both offsets, with the clear flag set by the ceiling of 16 alone
    and no values; a [Read] that the ceiling lets end on it returns zero
    bytes and that error and leaves the reader as it was, and so does every
    [Read] that returns an error. *)
Theorem offset_mismatch_is_error
    (r : NodeRequest) (lr : LogReader) (from : Z) (f t u payload : bytes) :
  served r = true -> err r = [] ->
  response r
  = str "SUCCESS: " ++ f ++ str "-" ++ t ++ str "/" ++ u ++ newline :: payload ->
  numeral f from -> t <> [] -> digits t -> u <> [] -> digits u ->
  from <> offset lr ->
  let msg := str "Unexpected from " ++ FormatUint from
             ++ str ", wanted " ++ FormatUint (offset lr) in
  parseLogPart r (offset lr) = (16 <=? retries r, 0, 0, [], msg)
  /\ includes msg (FormatUint from)
  /\ includes msg (FormatUint (offset lr))
  /\ ~ In percent msg
  /\ (forall w p k fuel,
        keeps_polling w (offset lr) k -> ctx_done (w k) = false ->
        request (w k) = r -> 16 <= retries r -> (k < fuel)%nat ->
        exists evs, Read fuel w lr p = Some (mkReadResult lr p 0 (Errorf msg) evs))
  /\ (forall w p fuel res m,
        Read fuel w lr p = Some res -> rr_err res = Errorf m ->
        rr_reader res = lr /\ rr_buffer res = p /\ rr_n res = 0).
Proof.
  intros Hs He Hr (Hf1 & Hf2 & Hf3 & Hf4) Ht1 Ht2 Hu1 Hu2 Hne msg.
  assert (Hdec : parseLogPart r (offset lr) = (16 <=? retries r, 0, 0, [], msg)).
  { unfold msg. rewrite <- Hf3.
    apply parseLogPart_error; [exact Hs|].
    apply (offset_mismatch r (offset lr)
             (str "SUCCESS: " ++ f ++ str "-" ++ t ++ str "/" ++ u) payload f t u);
      try assumption.
    - rewrite Hr. rewrite <- ?app_assoc. reflexivity.
    - repeat split; assumption.
    - rewrite Hf3. exact Hf4.
    - rewrite Hf3. exact Hne. }
  split; [exact Hdec|].
  split.
  { exists (str "Unexpected from "), (str ", wanted " ++ FormatUint (offset lr)).
    reflexivity. }
  split.
  { exists (str "Unexpected from " ++ FormatUint from ++ str ", wanted "), [].
    unfold msg. rewrite app_nil_r, <- ?app_assoc. reflexivity. }
  split.
  { unfold msg. repeat apply no_percent_app;
      try (apply digits_no_percent; apply FormatUint_digits); no_percent_literal. }
  split.
  - intros w p k fuel Hk Hc Hw H16 Hfuel.
    assert (Hcl : (16 <=? retries r) = true) by (apply Z.leb_le; exact H16).
    rewrite Hcl in Hdec. rewrite <- Hw in Hdec.
    unfold Read.
    rewrite (poll_cleared k fuel w (offset lr) 0 0 [] msg Hk Hc Hdec Hfuel).
    assert (Hm : is_empty msg = false) by reflexivity.
    rewrite Hm. simpl negb. cbv iota. eexists. reflexivity.
  - intros w p fuel res m. apply Read_error_keeps_reader.
Qed.

Lemma offset_mismatch_is_error_witness :
  parseLogPart (last_chunk 16) 5
  = (true, 0, 0, [], str "Unexpected from 6, wanted 5")
  /\ exists evs,
       Read 5 (served_third_round (last_chunk 16)) (sample_reader 0 5) (str "....")
       = Some (mkReadResult (sample_reader 0 5) (str "....") 0
                 (Errorf (str "Unexpected from 6, wanted 5")) evs).
Proof.
  destruct (offset_mismatch_is_error (last_chunk 16) (sample_reader 0 5) 6
              (str "6") (str "10") (str "10") (str "WXYZ"))
    as (Hdec & _ & _ & _ & Hread & _);
    try reflexivity; try discriminate; try (repeat constructor; fail);
    try numeral_by_computation.
  split; [exact Hdec|].
  apply (Hread (served_third_round (last_chunk 16)) (str "....") 2%nat 5%nat).
  - apply keeps_polling_two.
  - reflexivity.
  - reflexivity.
  - discriminate.
  - lia.
Defined.





(** After the send: when the first round finds the context done, [Read]
    returns zero bytes and the error [interrupted] with the reader and the
    buffer as they were, after the submission and one check of the context,
    with no decode and no sleep.  In every [Read] that returns, each round
    checks the context before it decodes, and a [Read] that finds the context
    done in round [k] returns [interrupted] without decoding in that round. *)
Lemma Read_cancelled_first_round
    (w : World) (lr : LogReader) (p : bytes) (fuel : nat) :
  ctx_done (w O) = true ->
  Read (S fuel) w lr p
  = Some (mkReadResult lr p 0 (Errorf (str "interrupted"))
            [EvSubmit (read_target lr); EvCtxCheck])
  /\ (forall fuel' w' res,
        Read fuel' w' lr p = Some res ->
        checked_before_decode (rr_events res) = true
        /\ exists k last,
             rr_events res = EvSubmit (read_target lr) :: rounds k ++ last
             /\ (last = [EvCtxCheck] \/ last = [EvCtxCheck; EvDecode]))
  /\ (forall fuel' w' k,
        keeps_polling w' (offset lr) k -> ctx_done (w' k) = true -> (k < fuel')%nat ->
        Read fuel' w' lr p
        = Some (mkReadResult lr p 0 (Errorf (str "interrupted"))
                  (EvSubmit (read_target lr) :: rounds k ++ [EvCtxCheck]))).
Proof.
  intros Hc. split; [|split].
  - unfold Read. simpl. rewrite Hc. reflexivity.
  - intros fuel' w' res H.
    destruct (Read_events fuel' w' lr p res H) as (k & last & Hev & Hlast).
    split; [|exists k, last; split; assumption].
    rewrite Hev. simpl. rewrite rounds_checked.
    destruct Hlast; subst last; reflexivity.
  - intros fuel' w' k Hk Hd Hf. unfold Read.
    rewrite (poll_interrupted k fuel' w' (offset lr) Hk Hd Hf). reflexivity.
Qed.

(** The send: it completes at the first moment at which the channel takes
    the request, and is blocked as long as the channel does not. *)
Lemma send_spec (fuel : nat) (ch : Channel) (i : nat) :
  match send fuel ch i with
  | Some j =>
      (i <= j < i + fuel)%nat /\ ch j = true
      /\ forall t, (i <= t < j)%nat -> ch t = false
  | None => forall t, (i <= t < i + fuel)%nat -> ch t = false
  end.
Proof.
  revert i. induction fuel as [|fuel IH]; intros i; cbn [send].
  - intros t Ht. lia.
  - destruct (ch i) eqn:E.
    + split; [lia|]. split; [exact E|]. intros t Ht. lia.
    + specialize (IH (S i)). destruct (send fuel ch (S i)) as [j|].
      * destruct IH as (Hj & Hc & Hb). split; [lia|]. split; [exact Hc|].
        intros t Ht. destruct (Nat.eq_dec t i) as [->|Hne]; [exact E|].
        apply Hb. lia.
      * intros t Ht. destruct (Nat.eq_dec t i) as [->|Hne]; [exact E|].
        apply IH. lia.
Qed.

Lemma send_completes (fuel : nat) (ch : Channel) (j : nat) :
  (forall i, (i < j)%nat -> ch i = false) -> ch j = true -> (j < fuel)%nat ->
  send fuel ch O = Some j.
Proof.
  intros Hb Hc Hf. pose proof (send_spec fuel ch O) as H.
  destruct (send fuel ch O) as [j'|].
  - destruct H as (Hj & Hc' & Hb').
    destruct (Nat.lt_trichotomy j' j) as [Hlt|[Heq|Hgt]].
    + rewrite (Hb j' Hlt) in Hc'. discriminate.
    + subst. reflexivity.
    + rewrite (Hb' j ltac:(lia)) in Hc. discriminate.
  - rewrite (H j ltac:(lia)) in Hc. discriminate.
Qed.

Lemma send_blocked (fuel : nat) (ch : Channel) :
  (forall i, (i < fuel)%nat -> ch i = false) -> send fuel ch O = None.
Proof.
  intros Hb. pose proof (send_spec fuel ch O) as H.
  destruct (send fuel ch O) as [j|]; [|reflexivity].
  destruct H as (Hj & Hc & _). rewrite (Hb j ltac:(lia)) in Hc. discriminate.
Qed.

(** Once the send has completed, the call is [Read] above. *)
Lemma LogReader_Read_after_send
      (fuel : nat) (ch : Channel) (w : World) (lr : LogReader) (p : bytes) (j : nat) :
  (forall i, (i < j)%nat -> ch i = false) -> ch j = true -> (j < fuel)%nat ->
  LogReader_Read fuel ch w lr p
  = match Read fuel w lr p with
    | None => None
    | Some res => Some (j, res)
    end.
Proof.
  intros Hb Hc Hf. unfold LogReader_Read.
  rewrite (send_completes fuel ch j Hb Hc Hf). reflexivity.
Qed.

(** C7, as the claim states it, fails: the send on the request channel comes
    before the first check of the context and does not look at it.  With the
    context done at entry and a channel that never takes the request, the
    call returns for no amount of fuel. *)
Lemma Read_blocked_before_context_check :
  ctx_done (cancelled_at_entry O) = true
  /\ ~ (exists fuel out,
          LogReader_Read fuel never_accepts cancelled_at_entry (sample_reader 10 6)
            (str "....") = Some out).
Proof.
  split; [reflexivity|]. intros (fuel & out & H). unfold LogReader_Read in H.
  rewrite send_blocked in H by reflexivity. discriminate.
Qed.

(** C7, amended.  When the request channel takes the request at moment [j]
    (at once when [j] is 0) and the context is done, the call returns right
    after the send with zero bytes and the error [interrupted], the reader
    and the buffer as they were; between the send and the return there is
    one check of the context, no decode and no sleep.  In every call that
    returns, each round of the loop checks the context before it decodes,
    and a call that finds the context done in round [k] returns
    [interrupted] without decoding in that round. *)
Theorem LogReader_Read_cancelled
    (ch : Channel) (w : World) (lr : LogReader) (p : bytes) (j fuel : nat) :
  (forall i, (i < j)%nat -> ch i = false) -> ch j = true -> (j < fuel)%nat ->
  ctx_done (w O) = true ->
  LogReader_Read fuel ch w lr p
  = Some (j, mkReadResult lr p 0 (Errorf (str "interrupted"))
               [EvSubmit (read_target lr); EvCtxCheck])
  /\ (forall fuel' ch' w' out,
        LogReader_Read fuel' ch' w' lr p = Some out ->
        checked_before_decode (rr_events (snd out)) = true
        /\ exists k last,
             rr_events (snd out) = EvSubmit (read_target lr) :: rounds k ++ last
             /\ (last = [EvCtxCheck] \/ last = [EvCtxCheck; EvDecode]))
  /\ (forall fuel' w' k,
        keeps_polling w' (offset lr) k -> ctx_done (w' k) = true ->
        (j < fuel')%nat -> (k < fuel')%nat ->
        LogReader_Read fuel' ch w' lr p
        = Some (j, mkReadResult lr p 0 (Errorf (str "interrupted"))
                     (EvSubmit (read_target lr) :: rounds k ++ [EvCtxCheck]))).
Proof.
  intros Hb Hc Hf Hd.
  destruct (Read_cancelled_first_round w lr p (fuel - 1) Hd) as (H1 & H2 & H3).
  split; [|split].
  - rewrite (LogReader_Read_after_send fuel ch w lr p j Hb Hc Hf).
    replace fuel with (S (fuel - 1)) by lia. rewrite H1. reflexivity.
  - intros fuel' ch' w' out H. unfold LogReader_Read in H.
    destruct (send fuel' ch' O) as [waited|]; [|discriminate].
    destruct (Read fuel' w' lr p) as [res|] eqn:E; [|discriminate].
    inversion H. subst out. simpl. apply (H2 fuel' w' res E).
  - intros fuel' w' k Hk Hd' Hj Hk'.
    rewrite (LogReader_Read_after_send fuel' ch w' lr p j Hb Hc Hj).
    rewrite (H3 fuel' w' k Hk Hd' Hk'). reflexivity.
Qed.

Lemma LogReader_Read_cancelled_witness :
  LogReader_Read 1 (accepts_from 0) cancelled_at_entry (sample_reader 10 6) (str "....")
  = Some (O, mkReadResult (sample_reader 10 6) (str "....") 0
               (Errorf (str "interrupted"))
               [EvSubmit (read_target (sample_reader 10 6)); EvCtxCheck]).
Proof.
  apply (proj1 (LogReader_Read_cancelled (accepts_from 0) cancelled_at_entry
                  (sample_reader 10 6) (str "....") 0 1
                  (fun i (H : (i < 0)%nat) =>
                     match Nat.nlt_0_r i H return accepts_from 0 i = false with end)
                  eq_refl (le_n 1) eq_refl)).
Defined.

(** C6.  [Seek] sets the offset to the given offset (from the start), to the
    current offset plus the given one (from the current position), to the
    total plus the given offset when the total is not zero and to 0 when it
    is (from the end), all in [uint64]; it returns that offset as [int64]
    and a [nil] error for every [whence], and an unknown [whence] leaves the
    reader alone.  It takes no [World]: it does no I/O.  With no total known
    a seek to the end returns 0, and with a total of 5000 a seek to the end
    with offset -100 returns 4900. *)
Theorem Seek_contract (lr : LogReader) (off : Z) :
  - 2 ^ 63 <= off < 2 ^ 63 -> 0 <= total lr ->
  Seek lr off SeekStart = (set_offset lr (wrap64 off), off, nil_error)
  /\ Seek lr off SeekCurrent
     = (set_offset lr (wrap64 (offset lr + off)), to_int64 (offset lr + off), nil_error)
  /\ (total lr <> 0 ->
      Seek lr off SeekEnd
      = (set_offset lr (wrap64 (total lr + off)), to_int64 (total lr + off), nil_error))
  /\ (total lr = 0 -> Seek lr off SeekEnd = (set_offset lr 0, 0, nil_error))
  /\ (forall x, 0 <= x < 2 ^ 63 -> wrap64 x = x /\ to_int64 x = x)
  /\ (forall whence, snd (Seek lr off whence) = nil_error)
  /\ (forall whence,
        whence <> SeekStart -> whence <> SeekCurrent -> whence <> SeekEnd ->
        fst (fst (Seek lr off whence)) = lr)
  /\ snd (fst (Seek (mkLogReader (filename lr) 0 (offset lr)) 0 SeekEnd)) = 0
  /\ snd (fst (Seek (mkLogReader (filename lr) 5000 (offset lr)) (-100) SeekEnd)) = 4900.
Proof.
  intros Hoff Htot. unfold Seek, SeekStart, SeekCurrent, SeekEnd.
  split.
  { simpl. rewrite to_int64_wrap, to_int64_of_int64 by exact Hoff. reflexivity. }
  split.
  { simpl. rewrite wrap64_int64_add, to_int64_wrap. reflexivity. }
  split.
  { intros Hne. simpl.
    assert (Hpos : (0 <? total lr) = true) by (apply Z.ltb_lt; lia).
    rewrite Hpos. simpl. rewrite wrap64_int64_add, to_int64_wrap. reflexivity. }
  split.
  { intros H0. simpl. rewrite H0. reflexivity. }
  split.
  { intros x Hx. split; [apply wrap64_small; unfold_limits; lia | apply to_int64_small; exact Hx]. }
  split.
  { intros whence. reflexivity. }
  split.
  { intros whence H0 H1 H2. unfold SeekStart, SeekCurrent, SeekEnd in *.
    apply Z.eqb_neq in H0, H1, H2. rewrite H0, H1, H2. reflexivity. }
  split; reflexivity.
Qed.

Lemma Seek_contract_witness :
  Seek (sample_reader 5000 1200) (-100) SeekEnd
  = (sample_reader 5000 4900, 4900, nil_error).
Proof.
  assert (H1 : - 2 ^ 63 <= -100 < 2 ^ 63) by (split; [discriminate | reflexivity]).
  assert (H2 : 0 <= total (sample_reader 5000 1200)) by discriminate.
  assert (H3 : total (sample_reader 5000 1200) <> 0) by discriminate.
  exact (proj1 (proj2 (proj2 (Seek_contract (sample_reader 5000 1200) (-100) H1 H2))) H3).
Defined.

(** ** The text decoders: claims C8, C9 and C10 *)

Lemma genSplit_nonempty (fuel : nat) (s sep : bytes) : genSplit fuel s sep <> [].
Proof. destruct fuel; simpl; [|destruct (Index s sep)]; discriminate. Qed.

Lemma len_cons_pos {A} (x : A) (l : list A) : (1 <=? len (x :: l)) = true.
Proof. apply Z.leb_le. unfold len. simpl length. lia. Qed.

(** C8, as the claim states it, fails for the snippet decoder: a successful
    response whose first line does not carry the marker is accepted, with
    all its lines and no error. *)
Lemma snippet_without_marker_accepted :
  HasPrefix (nth 0 (Split (str "log line one") [newline]) []) successLine = false
  /\ LogPart.processResponse LogPart.new (str "log line one") true
     = LogPart.mk true [] [str "log line one"].
Proof. split; reflexivity. Qed.

(** C8, amended.  With [success = false] the snippet and the list decoder
    take the raw text as the error and parse nothing, and the byte-chunk
    decoder returns the error text of a served request as it is.  With
    [success = true] the list decoder, and with a served request without
    error text the byte-chunk decoder, report a decode error when the first
    line does not start with the marker.  The snippet decoder does not: it
    reports success either way, drops the first line when it starts with the
    marker and keeps every line otherwise. *)
Theorem decoders_marker_contract
    (lp : LogPart.t) (ll : LogList.t) (r : NodeRequest) (off : Z) (result : bytes) :
  LogPart.processResponse lp result false = LogPart.mk false result (LogPart.Lines lp)
  /\ LogList.processResponse ll result false = LogList.set_Error ll result
  /\ (served r = true -> err r <> [] ->
      parseLogPart r off = (16 <=? retries r, 0, 0, [], err r))
  /\ (HasPrefix (nth 0 (Split result [newline]) []) successLine = false ->
      exists m, m <> [] /\ LogList.processResponse ll result true = LogList.set_Error ll m)
  /\ (served r = true -> err r = [] ->
      (forall k, IndexByte (response r) newline = Some k ->
                 HasPrefix (firstn k (response r)) successLine = false) ->
      exists m, m <> [] /\ parseLogPart r off = (16 <=? retries r, 0, 0, [], m))
  /\ LogPart.processResponse lp result true
     = LogPart.mk true (LogPart.Error lp)
         (if HasPrefix (nth 0 (Split result [newline]) []) successLine
          then tl (Split result [newline]) else Split result [newline]).
Proof.
  split; [reflexivity|]. split; [reflexivity|].
  split.
  { intros Hs He. apply parseLogPart_error; [exact Hs | apply remote_error; exact He]. }
  split.
  { intros Hm. unfold LogList.processResponse. cbn [negb]. cbv zeta.
    destruct (len (Split result [newline]) <? 2).
    - eexists. split; [|reflexivity]. simpl. discriminate.
    - rewrite Hm. cbn [negb]. eexists. split; [|reflexivity]. simpl. discriminate. }
  split.
  { intros Hs He Hm.
    destruct (parseLogPart_served r off Hs) as
      [[e Hde]|(line & rest & f & t & u & to & tot & _ & Hr & Hfmt & _)].
    - exists e. destruct (parseLogPart_error r off e Hs Hde) as [Hp Hne].
      split; assumption.
    - exfalso.
      pose proof (first_line_no_newline _ _ _ _ Hfmt) as Hn.
      specialize (Hm (length line)).
      rewrite Hr, IndexByte_first, firstn_app_exact in Hm by exact Hn.
      specialize (Hm eq_refl).
      destruct Hfmt as (Hl & _). rewrite Hl in Hm. discriminate. }
  unfold LogPart.processResponse. cbn [negb]. cbv zeta.
  unfold Split. destruct (genSplit (length result) result [newline]) as [|x l] eqn:E.
  - exfalso. exact (genSplit_nonempty _ _ _ E).
  - rewrite len_cons_pos. reflexivity.
Qed.

Lemma decoders_marker_contract_witness :
  exists m, m <> []
    /\ LogList.processResponse (LogList.new (str "s"))
         (str "FAILURE" ++ newline :: str "erigon.log | 2048") true
       = LogList.set_Error (LogList.new (str "s")) m.
Proof.
  apply (proj1 (proj2 (proj2 (proj2
           (decoders_marker_contract LogPart.new (LogList.new (str "s")) unserved 0
              (str "FAILURE" ++ newline :: str "erigon.log | 2048")))))).
  reflexivity.
Defined.

Lemma add_items_nil (ll : LogList.t) : add_items ll [] = ll.
Proof. destruct ll. unfold add_items. simpl. rewrite app_nil_r. reflexivity. Qed.

Lemma add_items_app (ll : LogList.t) (a b : list LogList.Item) :
  add_items (add_items ll a) b = add_items ll (a ++ b).
Proof. unfold add_items. simpl. rewrite app_assoc. reflexivity. Qed.

Lemma len_nonempty (l : bytes) : l <> [] -> (len l =? 0) = false.
Proof.
  intros H. destruct l as [|x l]; [contradiction|].
  apply Z.eqb_neq. unfold len. simpl length. lia.
Qed.

Lemma processLines_accepted_line
      (ll : LogList.t) (l : bytes) (its : list LogList.Item) (rest : list bytes) :
  accepted_line l its ->
  LogList.processLines ll (l :: rest) = LogList.processLines (add_items ll its) rest.
Proof.
  intros H. destruct H as [|l name field size Hne Hsp Hnum].
  - simpl. rewrite add_items_nil. reflexivity.
  - cbn [LogList.processLines]. rewrite (len_nonempty l Hne). cbv zeta.
    rewrite Hsp. cbn [len length Z.of_nat Z.eqb Pos.of_succ_nat Pos.succ Pos.eqb negb nth].
    rewrite (ParseUint_numeral field size Hnum). reflexivity.
Qed.

Lemma processLines_accepted
      (ll : LogList.t) (ls : list bytes) (its : list LogList.Item) (rest : list bytes) :
  accepted_lines ls its ->
  LogList.processLines ll (ls ++ rest) = LogList.processLines (add_items ll its) rest.
Proof.
  intros H. revert ll. induction H as [|l ls its its' Hl Hls IH]; intros ll.
  - simpl app. rewrite add_items_nil. reflexivity.
  - simpl app. rewrite (processLines_accepted_line ll l its) by exact Hl.
    rewrite IH, add_items_app. reflexivity.
Qed.

Lemma processLines_rejected
      (ll : LogList.t) (l msg : bytes) (rest : list bytes) :
  rejected_line l msg ->
  LogList.processLines ll (l :: rest) = LogList.set_Error ll msg.
Proof.
  intros H. destruct H as [l Hne Hcount|l name field Hne Hsp Hnum];
    cbn [LogList.processLines]; rewrite (len_nonempty l Hne); cbv zeta.
  - assert (Hc : (len (Split l (str " | ")) =? 2) = false).
    { apply Z.eqb_neq. unfold len. lia. }
    rewrite Hc. reflexivity.
  - rewrite Hsp. cbn [len length Z.of_nat Z.eqb Pos.of_succ_nat Pos.succ Pos.eqb negb nth].
    destruct (ParseUint field) as [size|e] eqn:E; [|reflexivity].
    exfalso. apply Hnum. exists size. apply ParseUint_inv. exact E.
Qed.

(** X3.  A successful list response whose first line starts with the marker
    and whose body lines are all blank or entries decodes with Success set,
    the error text left as it was, and the entries of the lines appended to
    the list in their order. *)
Lemma list_accepts_good_lines
      (ll : LogList.t) (result first : bytes) (good : list bytes)
      (items : list LogList.Item) :
  Split result [newline] = first :: good -> good <> [] ->
  HasPrefix first successLine = true -> accepted_lines good items ->
  LogList.processResponse ll result true
  = LogList.set_Success (add_items ll items) true.
Proof.
  intros Hsp Hne Hm Hgood. unfold LogList.processResponse. cbn [negb]. cbv zeta.
  rewrite Hsp.
  assert (Hlen : (len (first :: good) <? 2) = false).
  { apply Z.ltb_ge. unfold len. destruct good; [contradiction|]. simpl length. lia. }
  rewrite Hlen. cbn [nth tl]. rewrite Hm. cbn [negb].
  rewrite <- (app_nil_r good). rewrite (processLines_accepted ll good items []) by exact Hgood.
  reflexivity.
Qed.

Lemma list_accepts_good_lines_witness :
  LogList.processResponse (LogList.new (str "node"))
    (str "SUCCESS" ++ newline :: sample_entry_line ++ [newline]) true
  = LogList.set_Success
      (add_items (LogList.new (str "node"))
         ([LogList.mkItem (str "erigon.log") 2048 (str "2.0KB")] ++ [] ++ []))
      true.
Proof.
  apply (list_accepts_good_lines (LogList.new (str "node"))
           (str "SUCCESS" ++ newline :: sample_entry_line ++ [newline])
           (str "SUCCESS") [sample_entry_line; []]
           ([LogList.mkItem (str "erigon.log") 2048 (str "2.0KB")] ++ [] ++ [])
           eq_refl ltac:(discriminate) eq_refl).
  apply accepted_cons.
  - apply (entry_line sample_entry_line (str "erigon.log") (str "2048") 2048);
      [discriminate | reflexivity | numeral_by_computation].
  - apply accepted_cons; [apply blank_line | apply accepted_nil].
Defined.

Lemma Index_of_includes (msg part : bytes) :
  Index msg part = None -> ~ includes msg part.
Proof.
  intros H (pre & post & E). subst msg. revert H.
  induction pre as [|x pre IH]; intros H.
  - simpl app in H. destruct (part ++ post) as [|y l] eqn:E.
    + destruct part; [simpl in H; discriminate | discriminate].
    + assert (Hp : HasPrefix (y :: l) part = true) by (rewrite <- E; apply HasPrefix_app).
      simpl in H. rewrite Hp in H. discriminate.
  - simpl in H. destruct (HasPrefix (x :: pre ++ part ++ post) part); [discriminate|].
    destruct (Index (pre ++ part ++ post) part); [discriminate|].
    apply IH. reflexivity.
Qed.

(** C9, as the claim states it, fails: for a second line whose size is no
    number the error text holds the size field and not the line, and the
    entry decoded from the line before it is still in the list. *)
Lemma list_size_error_omits_line :
  exists ll,
    LogList.processResponse (LogList.new (str "s"))
      (str "SUCCESS" ++ newline :: str "a | 1" ++ newline :: str "b | x") true = ll
    /\ LogList.Error ll = str "incorrect size: x"
    /\ ~ includes (LogList.Error ll) (str "b | x")
    /\ LogList.List ll = [LogList.mkItem (str "a") 1 (str "1B")].
Proof.
  eexists. split; [reflexivity|]. split; [reflexivity|].
  split; [|reflexivity]. apply Index_of_includes. reflexivity.
Qed.

(** C9, amended.  In a successful list response whose first line starts
    with the marker, let every body line before [bad] be blank or an entry,
    and [bad] be a non-blank line that does not split into exactly two fields
    on [" | "] or whose second field is no decimal numeral of an unsigned
    64-bit size.  The decoder stops at [bad] with an error and leaves Success
    as it was: for a wrong number of fields the text includes the line as it
    is, for a wrong size it is [incorrect size: ] followed by the second
    field.  No line after [bad] is decoded; the entries of the lines before
    it are in the list. *)
Theorem list_rejects_bad_line
    (ll : LogList.t) (result first bad msg : bytes) (good rest : list bytes)
    (items : list LogList.Item) :
  Split result [newline] = first :: good ++ bad :: rest ->
  HasPrefix first successLine = true ->
  accepted_lines good items -> rejected_line bad msg ->
  LogList.processResponse ll result true
  = LogList.mk (LogList.Success ll) msg (LogList.SessionName ll)
      (LogList.List ll ++ items)
  /\ msg <> []
  /\ (length (Split bad (str " | ")) <> 2%nat -> includes msg bad)
  /\ (forall name field,
        Split bad (str " | ") = [name; field] ->
        msg = str "incorrect size: " ++ field /\ includes msg field).
Proof.
  intros Hsp Hm Hgood Hbad. split.
  - unfold LogList.processResponse. cbn [negb]. cbv zeta. rewrite Hsp.
    assert (Hlen : (len (first :: good ++ bad :: rest) <? 2) = false).
    { apply Z.ltb_ge. unfold len. simpl length. rewrite length_app. simpl length. lia. }
    rewrite Hlen. cbn [nth tl]. rewrite Hm. cbn [negb].
    rewrite (processLines_accepted ll good items (bad :: rest)) by exact Hgood.
    rewrite (processLines_rejected (add_items ll items) bad msg rest) by exact Hbad.
    reflexivity.
  - destruct Hbad as [l Hne Hcount|l name field Hne Hs Hnum].
    + split; [simpl; discriminate|]. split.
      * intros _.
        exists (str "incorrect response line (need to have 2 terms divided by |): "), [].
        rewrite app_nil_r. reflexivity.
      * intros name field Hs. rewrite Hs in Hcount. simpl in Hcount. contradiction.
    + split; [simpl; discriminate|]. split.
      * intros Hcount. rewrite Hs in Hcount. simpl in Hcount. contradiction.
      * intros name' field' Hs'. rewrite Hs in Hs'. inversion Hs'. subst.
        split; [reflexivity|].
        exists (str "incorrect size: "), []. rewrite app_nil_r. reflexivity.
Qed.

Lemma list_rejects_bad_line_witness :
  LogList.processResponse (LogList.new (str "s"))
    (str "SUCCESS" ++ newline :: str "a | 1" ++ newline :: str "b | x") true
  = LogList.mk false (str "incorrect size: x") (str "s")
      [LogList.mkItem (str "a") 1 (str "1B")].
Proof.
  apply (proj1 (list_rejects_bad_line (LogList.new (str "s"))
                  (str "SUCCESS" ++ newline :: str "a | 1" ++ newline :: str "b | x")
                  (str "SUCCESS") (str "b | x") (str "incorrect size: x")
                  [str "a | 1"] [] [LogList.mkItem (str "a") 1 (str "1B")]
                  eq_refl eq_refl
                  (accepted_cons (str "a | 1") [] _ []
                     (entry_line (str "a | 1") (str "a") (str "1") 1
                        ltac:(discriminate) eq_refl ltac:(numeral_by_computation))
                     accepted_nil)
                  (wrong_size (str "b | x") (str "b") (str "x")
                     ltac:(discriminate) eq_refl
                     ltac:(intros [size (_ & Hd & _)]; inversion Hd; discriminate)))).
Defined.

(** C10.  The list decoder rejects every successful response that splits
    into fewer than two lines, which every response without a newline does:
    the error is [incorrect response (length of lines should be at least
    2): ] followed by the lines, and Success and the list are left as they
    were.  This holds for the response that is the success marker alone,
    although its first line carries the marker. *)
Theorem list_rejects_single_line (ll : LogList.t) (result : bytes) :
  (length (Split result [newline]) < 2)%nat ->
  LogList.processResponse ll result true
  = LogList.set_Error ll
      (str "incorrect response (length of lines should be at least 2): "
       ++ fmt_strings (Split result [newline]))
  /\ LogList.List (LogList.processResponse ll result true) = LogList.List ll
  /\ LogList.Success (LogList.processResponse ll result true) = LogList.Success ll
  /\ (~ In newline result -> Split result [newline] = [result])
  /\ HasPrefix (nth 0 (Split successLine [newline]) []) successLine = true
  /\ LogList.processResponse (LogList.new (LogList.SessionName ll)) successLine true
     = LogList.mk false
         (str "incorrect response (length of lines should be at least 2): [SUCCESS]")
         (LogList.SessionName ll) [].
Proof.
  intros Hlen.
  assert (Hp : LogList.processResponse ll result true
               = LogList.set_Error ll
                   (str "incorrect response (length of lines should be at least 2): "
                    ++ fmt_strings (Split result [newline]))).
  { unfold LogList.processResponse. cbn [negb]. cbv zeta.
    assert (Hc : (len (Split result [newline]) <? 2) = true).
    { apply Z.ltb_lt. unfold len. lia. }
    rewrite Hc. reflexivity. }
  split; [exact Hp|]. rewrite Hp.
  split; [reflexivity|]. split; [reflexivity|].
  split; [apply Split_one_line|]. split; reflexivity.
Qed.

Lemma list_rejects_single_line_witness :
  LogList.processResponse (LogList.new (str "s")) (str "SUCCESS") true
  = LogList.set_Error (LogList.new (str "s"))
      (str "incorrect response (length of lines should be at least 2): "
       ++ fmt_strings (Split (str "SUCCESS") [newline])).
Proof.
  apply (proj1 (list_rejects_single_line (LogList.new (str "s")) (str "SUCCESS")
                  (le_n 2))).
Defined.

(** ** Further properties of the decoders and the reader *)

(** *** Lines *)

Lemma Index_byte_first (l rest : bytes) (c : ascii) :
  ~ In c l -> Index (l ++ c :: rest) [c] = Some (length l).
Proof.
  induction l as [|x l IH]; intros Hn; simpl.
  - rewrite byte_eqb_refl. reflexivity.
  - destruct (byte_eqb x c) eqn:E.
    + apply byte_eqb_eq in E. subst x. exfalso. apply Hn. left. reflexivity.
    + simpl. rewrite IH; [reflexivity|]. intros Hin. apply Hn. right. exact Hin.
Qed.

(** The first line is cut at the first newline and the rest is split on. *)
Lemma Split_cons (line rest : bytes) :
  ~ In newline line ->
  Split (line ++ newline :: rest) [newline] = line :: Split rest [newline].
Proof.
  intros Hn. unfold Split at 1. rewrite length_app. simpl length.
  rewrite Nat.add_succ_r. cbn [genSplit].
  rewrite Index_byte_first by exact Hn.
  rewrite firstn_app_exact. simpl length. rewrite Nat.add_1_r, skipn_app_next.
  f_equal. apply Split_fuel; [discriminate | lia].
Qed.

Lemma cut_at_newline (s : bytes) :
  In newline s ->
  exists line rest, s = line ++ newline :: rest /\ ~ In newline line
                    /\ (length rest < length s)%nat.
Proof.
  intros Hin. destruct (IndexByte s newline) as [k|] eqn:E.
  - apply IndexByte_Some in E. destruct E as [Hs Hn].
    exists (firstn k s), (skipn (S k) s). split; [exact Hs|]. split; [exact Hn|].
    rewrite Hs at 2. rewrite length_app. simpl length. lia.
  - apply IndexByte_None in E. contradiction.
Qed.

Lemma In_newline_dec (s : bytes) : {In newline s} + {~ In newline s}.
Proof. apply in_dec. apply ascii_dec. Qed.

(** Joining the lines gives the text back, and no line holds a newline. *)
Lemma unlines_Split (s : bytes) :
  unlines (Split s [newline]) = s
  /\ Forall (fun l => ~ In newline l) (Split s [newline]).
Proof.
  remember (length s) as n eqn:Hn. revert s Hn.
  induction n as [n IH] using lt_wf_ind. intros s Hn.
  destruct (In_newline_dec s) as [Hin|Hno].
  - destruct (cut_at_newline s Hin) as (line & rest & Hs & Hl & Hlen).
    rewrite Hs, Split_cons by exact Hl.
    destruct (IH (length rest) ltac:(lia) rest eq_refl) as [IH1 IH2].
    split; [|constructor; assumption].
    destruct (Split rest [newline]) as [|x xs] eqn:E.
    + exfalso. exact (genSplit_nonempty _ _ _ E).
    + change (unlines (line :: x :: xs)) with (line ++ newline :: unlines (x :: xs)).
      rewrite IH1. reflexivity.
  - rewrite Split_one_line by exact Hno. split; [reflexivity|].
    constructor; [exact Hno | constructor].
Qed.

(** *** The list decoder *)

Lemma processLines_outcome (lines : list bytes) (ll : LogList.t) :
  LogList.Success ll = false -> LogList.Error ll = [] ->
  LogList.SessionName (LogList.processLines ll lines) = LogList.SessionName ll
  /\ (LogList.Success (LogList.processLines ll lines) = true
      /\ LogList.Error (LogList.processLines ll lines) = []
      \/ LogList.Success (LogList.processLines ll lines) = false
         /\ LogList.Error (LogList.processLines ll lines) <> []).
Proof.
  revert ll. induction lines as [|l rest IH]; intros ll Hs He.
  - simpl. split; [reflexivity|]. left. split; [reflexivity | exact He].
  - cbn [LogList.processLines]. destruct (len l =? 0); [apply IH; assumption|].
    cbv zeta. destruct (negb (len (Split l (str " | ")) =? 2)).
    + simpl. split; [reflexivity|]. right. split; [exact Hs | discriminate].
    + destruct (ParseUint (nth 1 (Split l (str " | ")) [])) as [size|e].
      * exact (IH (LogList.append ll _) Hs He).
      * simpl. split; [reflexivity|]. right. split; [exact Hs | discriminate].
Qed.

(** X1.  Decoding a successful list response into the zero value ends in
    exactly one of two states: Success set and no error text, or Success
    clear and a non-empty error text.  The session name is never touched. *)
Theorem list_success_or_error (sessionName result : bytes) :
  LogList.SessionName (LogList.processResponse (LogList.new sessionName) result true)
  = sessionName
  /\ (LogList.Success (LogList.processResponse (LogList.new sessionName) result true)
      = true
      /\ LogList.Error (LogList.processResponse (LogList.new sessionName) result true)
         = []
      \/ LogList.Success (LogList.processResponse (LogList.new sessionName) result true)
         = false
         /\ LogList.Error (LogList.processResponse (LogList.new sessionName) result true)
            <> []).
Proof.
  unfold LogList.processResponse. cbn [negb]. cbv zeta.
  destruct (len (Split result [newline]) <? 2).
  - simpl. split; [reflexivity|]. right. split; [reflexivity | discriminate].
  - destruct (negb (HasPrefix (nth 0 (Split result [newline]) []) successLine)).
    + simpl. split; [reflexivity|]. right. split; [reflexivity | discriminate].
    + apply (processLines_outcome _ (LogList.new sessionName)); reflexivity.
Qed.

Lemma len_two_inv (terms : list bytes) :
  (len terms =? 2) = true -> exists a b, terms = [a; b].
Proof.
  intros H. apply Z.eqb_eq in H. unfold len in H.
  destruct terms as [|a [|b [|c t]]]; simpl length in H; try lia.
  exists a, b. reflexivity.
Qed.

Lemma processLines_success_inv (lines : list bytes) (ll : LogList.t) :
  LogList.Success ll = false ->
  LogList.Success (LogList.processLines ll lines) = true ->
  exists items,
    accepted_lines lines items
    /\ LogList.processLines ll lines = LogList.set_Success (add_items ll items) true.
Proof.
  revert ll. induction lines as [|l rest IH]; intros ll Hf Hs.
  - exists []. split; [constructor|]. simpl. rewrite add_items_nil. reflexivity.
  - assert (Hl : exists its, accepted_line l its).
    { destruct l as [|c l']; [exists []; constructor|].
      cbn [LogList.processLines] in Hs.
      rewrite (len_nonempty (c :: l')) in Hs by discriminate. cbv zeta in Hs.
      destruct (len (Split (c :: l') (str " | ")) =? 2) eqn:E.
      - destruct (len_two_inv _ E) as (a & b & Hab). rewrite Hab in Hs.
        cbn [negb nth] in Hs.
        destruct (ParseUint b) as [size|e] eqn:Ep.
        + eexists. apply (entry_line (c :: l') a b size);
            [discriminate | exact Hab | apply ParseUint_inv; exact Ep].
        + simpl in Hs. congruence.
      - cbn [negb] in Hs. simpl in Hs. congruence. }
    destruct Hl as [its Hl].
    rewrite (processLines_accepted_line ll l its rest Hl) in Hs |- *.
    destruct (IH (add_items ll its) Hf Hs) as (items & Hacc & Heq).
    exists (its ++ items). split; [constructor; assumption|].
    rewrite Heq, add_items_app. reflexivity.
Qed.

(** X2.  When the list decoder sets Success, the response had at least two
    lines, its first line started with the marker, every body line was blank
    or an entry [<name> | <size>] with the decimal numeral of a 64-bit size,
    and the list holds exactly the entries of those lines, in their order. *)
Theorem list_success_is_sound (ll : LogList.t) (result : bytes) :
  LogList.Success ll = false ->
  LogList.Success (LogList.processResponse ll result true) = true ->
  exists first good items,
    Split result [newline] = first :: good /\ good <> []
    /\ HasPrefix first successLine = true
    /\ accepted_lines good items
    /\ LogList.processResponse ll result true
       = LogList.mk true (LogList.Error ll) (LogList.SessionName ll)
           (LogList.List ll ++ items).
Proof.
  intros Hf. unfold LogList.processResponse. cbn [negb]. cbv zeta.
  destruct (len (Split result [newline]) <? 2) eqn:Hlen;
    [simpl; intros Hs; congruence|].
  destruct (HasPrefix (nth 0 (Split result [newline]) []) successLine) eqn:Hm;
    [|simpl; intros Hs; congruence].
  cbn [negb]. intros Hs.
  destruct (Split result [newline]) as [|first good] eqn:Hsp.
  { exfalso. exact (genSplit_nonempty _ _ _ Hsp). }
  cbn [tl nth] in *.
  destruct (processLines_success_inv good ll Hf Hs) as (items & Hacc & Heq).
  exists first, good, items. split; [reflexivity|]. split.
  { intros Hg. subst good. apply Z.ltb_ge in Hlen. unfold len in Hlen.
    simpl length in Hlen. lia. }
  split; [exact Hm|]. split; [exact Hacc|]. rewrite Heq. reflexivity.
Qed.

Lemma list_success_is_sound_witness :
  exists first good items,
    Split (str "SUCCESS" ++ newline :: sample_entry_line) [newline] = first :: good
    /\ good <> []
    /\ HasPrefix first successLine = true
    /\ accepted_lines good items
    /\ LogList.processResponse (LogList.new (str "node"))
         (str "SUCCESS" ++ newline :: sample_entry_line) true
       = LogList.mk true [] (str "node") ([] ++ items).
Proof.
  apply (list_success_is_sound (LogList.new (str "node"))
           (str "SUCCESS" ++ newline :: sample_entry_line) eq_refl eq_refl).
Defined.

Lemma processResponse_body (ll : LogList.t) (result first : bytes) (good : list bytes) :
  Split result [newline] = first :: good -> good <> [] ->
  HasPrefix first successLine = true ->
  LogList.processResponse ll result true = LogList.processLines ll good.
Proof.
  intros Hsp Hne Hm. unfold LogList.processResponse. cbn [negb]. cbv zeta.
  rewrite Hsp.
  assert (Hlen : (len (first :: good) <? 2) = false).
  { apply Z.ltb_ge. unfold len. destruct good; [contradiction|]. simpl length. lia. }
  rewrite Hlen. cbn [nth tl]. rewrite Hm. reflexivity.
Qed.

Lemma decimal_nonneg (s : bytes) : digits s -> 0 <= decimal s.
Proof. intros H. apply (decimal_grows s 0); [lia | exact H]. Qed.

(** X4.  The size of an entry is stored as [int64(size)]: a size below 2^63
    is kept, a size from 2^63 up to 2^64 - 1 is stored as the negative number
    [size - 2^64], while the printed size is still made from the unsigned
    value. *)
Theorem list_size_stored_as_int64
    (ll : LogList.t) (first l name field : bytes) (v : Z) :
  ~ In newline first -> ~ In newline l -> HasPrefix first successLine = true ->
  l <> [] -> Split l (str " | ") = [name; field] -> numeral field v ->
  LogList.processResponse ll (first ++ newline :: l) true
  = LogList.mk true (LogList.Error ll) (LogList.SessionName ll)
      (LogList.List ll
       ++ [LogList.mkItem name (if v <? 2 ^ 63 then v else v - two64) (ByteCount v)]).
Proof.
  intros Hf Hl Hm Hne Hsp Hnum.
  rewrite (processResponse_body ll _ first [l]);
    [|rewrite Split_cons, Split_one_line by assumption; reflexivity
     |discriminate|exact Hm].
  rewrite (processLines_accepted_line ll l _ [] (entry_line l name field v Hne Hsp Hnum)).
  simpl. unfold add_items, LogList.set_Success. simpl.
  destruct Hnum as (_ & Hd & Hv & Hlt). pose proof (decimal_nonneg field Hd) as H0.
  unfold to_int64. rewrite wrap64_small by lia. reflexivity.
Qed.

Lemma list_size_stored_as_int64_witness :
  LogList.processResponse (LogList.new (str "node"))
    (str "SUCCESS" ++ newline :: str "core | 18446744073709551615") true
  = LogList.mk true [] (str "node")
      ([] ++ [LogList.mkItem (str "core") (-1) (str "16.0EB")]).
Proof.
  apply (list_size_stored_as_int64 (LogList.new (str "node")) (str "SUCCESS")
           (str "core | 18446744073709551615") (str "core")
           (str "18446744073709551615") 18446744073709551615);
    try reflexivity; try discriminate; try numeral_by_computation;
    intros H; simpl in H; repeat (destruct H as [H|H]; [discriminate|]); exact H.
Defined.

(** *** The snippet decoder *)

(** X5.  For a successful snippet response with a newline after its first
    line, the decoded lines are the lines of the text after that newline when
    the first line starts with the marker, and the first line followed by
    them when it does not; joined by newlines they give that text back, byte
    for byte, and no decoded line holds a newline. *)
Theorem snippet_keeps_body (lp : LogPart.t) (first body : bytes) :
  ~ In newline first ->
  LogPart.processResponse lp (first ++ newline :: body) true
  = LogPart.mk true (LogPart.Error lp)
      (if HasPrefix first successLine then Split body [newline]
       else first :: Split body [newline])
  /\ unlines (Split body [newline]) = body
  /\ unlines (first :: Split body [newline]) = first ++ newline :: body
  /\ Forall (fun l => ~ In newline l) (first :: Split body [newline]).
Proof.
  intros Hf. destruct (unlines_Split body) as [Hu Hall].
  split; [|split; [exact Hu|split]].
  - unfold LogPart.processResponse. cbn [negb]. cbv zeta.
    rewrite Split_cons by exact Hf. rewrite len_cons_pos. cbn [nth andb tl].
    destruct (HasPrefix first successLine); reflexivity.
  - destruct (Split body [newline]) as [|x xs] eqn:E.
    + exfalso. exact (genSplit_nonempty _ _ _ E).
    + change (unlines (first :: x :: xs)) with (first ++ newline :: unlines (x :: xs)).
      rewrite Hu. reflexivity.
  - constructor; assumption.
Qed.

Lemma snippet_keeps_body_witness :
  LogPart.processResponse LogPart.new
    (str "SUCCESS" ++ newline :: str "first" ++ newline :: newline :: str "last") true
  = LogPart.mk true [] [str "first"; []; str "last"].
Proof.
  apply (proj1 (snippet_keeps_body LogPart.new (str "SUCCESS")
                  (str "first" ++ newline :: newline :: str "last")
                  ltac:(intros H; simpl in H;
                        repeat (destruct H as [H|H]; [discriminate|]); exact H))).
Defined.

(** X6.  A successful snippet response without any newline decodes to no
    line at all when it starts with the marker and to itself as the only line
    when it does not; the decoder sets Success in both cases and leaves the
    error text alone. *)
Theorem snippet_of_one_line (lp : LogPart.t) (result : bytes) :
  ~ In newline result ->
  LogPart.processResponse lp result true
  = LogPart.mk true (LogPart.Error lp)
      (if HasPrefix result successLine then [] else [result]).
Proof.
  intros Hn. unfold LogPart.processResponse. cbn [negb]. cbv zeta.
  rewrite Split_one_line by exact Hn. rewrite len_cons_pos. cbn [nth andb tl].
  destruct (HasPrefix result successLine); reflexivity.
Qed.

Lemma snippet_of_one_line_witness :
  LogPart.processResponse LogPart.new (str "SUCCESS: 0-4/10") true
  = LogPart.mk true [] [].
Proof.
  apply (snippet_of_one_line LogPart.new (str "SUCCESS: 0-4/10")).
  intros H; simpl in H; repeat (destruct H as [H|H]; [discriminate|]); exact H.
Defined.

(** *** The byte-chunk decoder *)

Lemma parseLogPart_unserved (r : NodeRequest) (off : Z) :
  served r = false -> parseLogPart r off = (false, 0, 0, [], []).
Proof. intros H. unfold parseLogPart. rewrite H. reflexivity. Qed.

(** X7.  What a result of the decoder tells about the request.  A result
    without error text and without the clear flag means that the request is
    not served; a result with the clear flag and without error text means
    that the request is served without error text, that its response is a
    first line [SUCCESS: <from>-<to>/<total>], a newline and exactly the
    returned payload, that [<from>] is a numeral of the requested offset and
    that the returned numbers are those of [<to>] and [<total>]. *)
Theorem parseLogPart_result_is_sound
    (r : NodeRequest) (off to tot : Z) (clear : bool) (part e : bytes) :
  parseLogPart r off = (clear, to, tot, part, e) -> e = [] ->
  (clear = false -> served r = false /\ to = 0 /\ tot = 0 /\ part = [])
  /\ (clear = true ->
      served r = true /\ err r = []
      /\ exists line f t u,
           response r = line ++ newline :: part
           /\ first_line_format line f t u
           /\ numeral f off /\ numeral t to /\ numeral u tot).
Proof.
  intros Hp He. subst e. destruct (served r) eqn:Hs.
  - destruct (parseLogPart_served r off Hs) as
      [[e' He']|(line & rest & f & t & u & to' & tot' & He & Hr & Hfmt & Hf & Ht & Hu)].
    + destruct (parseLogPart_error r off e' Hs He') as [Hp' Hne].
      rewrite Hp' in Hp. inversion Hp. subst. contradiction.
    + rewrite (parseLogPart_chunk r off to' tot' line rest f t u) in Hp by assumption.
      inversion Hp. subst. split; [discriminate|]. intros _.
      split; [reflexivity|]. split; [exact He|].
      exists line, f, t, u. split; [exact Hr|]. split; [exact Hfmt|].
      split; [exact Hf|]. split; [exact Ht | exact Hu].
  - rewrite (parseLogPart_unserved r off Hs) in Hp. inversion Hp. subst.
    split; [|discriminate]. intros _. repeat split.
Qed.

Lemma parseLogPart_result_is_sound_witness :
  (true = false -> served (last_chunk 0) = false /\ 10 = 0 /\ 10 = 0 /\ str "WXYZ" = [])
  /\ (true = true ->
      served (last_chunk 0) = true /\ err (last_chunk 0) = []
      /\ exists line f t u,
           response (last_chunk 0) = line ++ newline :: str "WXYZ"
           /\ first_line_format line f t u
           /\ numeral f 6 /\ numeral t 10 /\ numeral u 10).
Proof.
  apply (parseLogPart_result_is_sound (last_chunk 0) 6 10 10 true (str "WXYZ") []);
    reflexivity.
Defined.

Lemma numeral_FormatUint (v : Z) : 0 <= v < two64 -> numeral (FormatUint v) v.
Proof. intros H. apply ParseUint_inv. apply ParseUint_FormatUint. exact H. Qed.

(** X8.  A header written with [%d] is read back: a served response whose
    first line is [SUCCESS: ], the decimal printing of the requested offset,
    a dash, that of a 64-bit [to], a slash and that of a 64-bit [total],
    followed by a newline and any payload, decodes to success with that
    [to], that [total] and that payload. *)
Theorem chunk_header_round_trip
    (r : NodeRequest) (off to tot : Z) (payload : bytes) :
  0 <= off < two64 -> 0 <= to < two64 -> 0 <= tot < two64 ->
  served r = true -> err r = [] ->
  response r
  = str "SUCCESS: " ++ FormatUint off ++ str "-" ++ FormatUint to ++ str "/"
    ++ FormatUint tot ++ newline :: payload ->
  parseLogPart r off = (true, to, tot, payload, []).
Proof.
  intros Hoff Hto Htot Hs He Hr.
  pose proof (numeral_FormatUint off Hoff) as Nf.
  pose proof (numeral_FormatUint to Hto) as Nt.
  pose proof (numeral_FormatUint tot Htot) as Nu.
  apply (parseLogPart_chunk r off to tot
           (str "SUCCESS: " ++ FormatUint off ++ str "-" ++ FormatUint to ++ str "/"
            ++ FormatUint tot)
           payload (FormatUint off) (FormatUint to) (FormatUint tot));
    try assumption.
  - rewrite Hr. rewrite <- ?app_assoc. reflexivity.
  - destruct Nf as (Hf1 & Hf2 & _), Nt as (Ht1 & Ht2 & _), Nu as (Hu1 & Hu2 & _).
    repeat split; assumption.
Qed.

Lemma chunk_header_round_trip_witness :
  parseLogPart
    (mkNodeRequest [] true
       (str "SUCCESS: " ++ FormatUint 4096 ++ str "-" ++ FormatUint 8192 ++ str "/"
        ++ FormatUint 18446744073709551615 ++ newline :: str "payload") [] 3)
    4096
  = (true, 8192, 18446744073709551615, str "payload", []).
Proof.
  apply (chunk_header_round_trip _ 4096 8192 18446744073709551615 (str "payload"));
    try reflexivity; split; try discriminate; reflexivity.
Defined.

(** *** Printed sizes *)

Lemma MBToGB_loop_spec (fuel : nat) (n div : Z) (exp : nat) :
  1 <= n < 1024 ^ Z.of_nat fuel -> 0 < div -> div * n < two64 ->
  exists k,
    MBToGB_loop fuel n div exp = (div * 1024 ^ Z.of_nat k, (exp + k)%nat)
    /\ 1024 ^ Z.of_nat k <= n < 1024 ^ Z.of_nat (S k).
Proof.
  revert n div exp. induction fuel as [|fuel IH]; intros n div exp Hn Hd Hb.
  - simpl in Hn. lia.
  - cbn [MBToGB_loop]. destruct (1024 <=? n) eqn:E.
    + apply Z.leb_le in E.
      pose proof (Z.div_mod n 1024 ltac:(lia)) as Hdm.
      pose proof (Z.mod_pos_bound n 1024 ltac:(lia)) as Hm.
      rewrite Nat2Z.inj_succ, Z.pow_succ_r in Hn by lia.
      assert (Hq : 1 <= n / 1024 < 1024 ^ Z.of_nat fuel) by lia.
      assert (Hw : div * 1024 * (n / 1024) < two64) by nia.
      assert (Hs : div * 1024 < two64) by nia.
      rewrite wrap64_small by lia.
      destruct (IH (n / 1024) (div * 1024) (S exp) Hq ltac:(lia) Hw) as (k & Hk & Hr).
      exists (S k). rewrite Hk. split.
      * f_equal; [|lia]. rewrite (Nat2Z.inj_succ k), Z.pow_succ_r by lia. ring.
      * rewrite (Nat2Z.inj_succ (S k)), (Nat2Z.inj_succ k) in *.
        rewrite !Z.pow_succ_r in * by lia. lia.
    + apply Z.leb_gt in E. exists O. split.
      * f_equal; [simpl; lia | lia].
      * simpl. lia.
Qed.

(** X9.  For every size from 1024 up to 2^64 - 1, [MBToGB] divides by the
    largest power of 1024 that does not exceed the size and returns its
    exponent less one, which is at most 5: the letter that [ByteCount] takes
    from [KMGTPE] always exists, and no multiplication of the divisor
    overflows. *)
Theorem MBToGB_picks_unit (b : Z) :
  1024 <= b < two64 ->
  exists e,
    (e <= 5)%nat
    /\ MBToGB b = ((float64_of_uint64 b, 1024 ^ Z.of_nat (S e)), e)
    /\ 1024 ^ Z.of_nat (S e) <= b < 1024 ^ Z.of_nat (S (S e))
    /\ ByteCount b
       = fmt_1f (float64_of_uint64 b, 1024 ^ Z.of_nat (S e))
         ++ [nth e (str "KMGTPE") zero] ++ str "B"
    /\ In (nth e (str "KMGTPE") zero) (str "KMGTPE").
Proof.
  intros Hb.
  pose proof (Z.div_mod b 1024 ltac:(lia)) as Hdm.
  pose proof (Z.mod_pos_bound b 1024 ltac:(lia)) as Hm.
  assert (Hn : 1 <= b / 1024 < 1024 ^ Z.of_nat 6).
  { change (1024 ^ Z.of_nat 6) with 1152921504606846976. unfold_limits. lia. }
  destruct (MBToGB_loop_spec 6 (b / 1024) 1024 O Hn ltac:(lia) ltac:(lia))
    as (k & Hk & Hr).
  assert (Hk5 : (k <= 5)%nat).
  { destruct (le_gt_dec k 5) as [H|H]; [exact H|]. exfalso.
    assert (H6 : 1024 ^ 6 <= 1024 ^ Z.of_nat k) by (apply Z.pow_le_mono_r; lia).
    change (1024 ^ 6) with 1152921504606846976 in H6. unfold_limits. lia. }
  assert (Hdiv : float64_of_uint64 (1024 * 1024 ^ Z.of_nat k) = 1024 ^ Z.of_nat (S k)).
  { do 6 (destruct k as [|k]; [reflexivity|]). lia. }
  assert (Hmb : MBToGB b = ((float64_of_uint64 b, 1024 ^ Z.of_nat (S k)), k)).
  { unfold MBToGB. assert (E : (b <? 1024) = false) by (apply Z.ltb_ge; lia).
    rewrite E, Hk, Hdiv. reflexivity. }
  exists k. split; [exact Hk5|]. split; [exact Hmb|]. split.
  { rewrite (Nat2Z.inj_succ (S k)), (Nat2Z.inj_succ k) in *.
    rewrite !Z.pow_succ_r in * by lia. lia. }
  split.
  { unfold ByteCount. assert (E : (b <? 1024) = false) by (apply Z.ltb_ge; lia).
    rewrite E, Hmb. reflexivity. }
  do 6 (destruct k as [|k]; [simpl; tauto|]). lia.
Qed.

Lemma MBToGB_picks_unit_witness :
  exists e,
    (e <= 5)%nat
    /\ MBToGB 1572864 = ((float64_of_uint64 1572864, 1024 ^ Z.of_nat (S e)), e)
    /\ 1024 ^ Z.of_nat (S e) <= 1572864 < 1024 ^ Z.of_nat (S (S e))
    /\ ByteCount 1572864
       = fmt_1f (float64_of_uint64 1572864, 1024 ^ Z.of_nat (S e))
         ++ [nth e (str "KMGTPE") zero] ++ str "B"
    /\ In (nth e (str "KMGTPE") zero) (str "KMGTPE").
Proof.
  apply (MBToGB_picks_unit 1572864). split; [discriminate | reflexivity].
Defined.

(** X10.  Below 1024 the printed size is the decimal numeral of the size
    followed by [B], and [ParseUint] reads that numeral back as the size. *)
Theorem ByteCount_below_unit (b : Z) :
  0 <= b < 1024 ->
  ByteCount b = FormatUint b ++ str "B"
  /\ ParseUint (FormatUint b) = inl b.
Proof.
  intros Hb. split.
  - unfold ByteCount. assert (E : (b <? 1024) = true) by (apply Z.ltb_lt; lia).
    rewrite E. reflexivity.
  - apply ParseUint_FormatUint. unfold_limits. lia.
Qed.

Lemma ByteCount_below_unit_witness :
  ByteCount 1023 = FormatUint 1023 ++ str "B"
  /\ ParseUint (FormatUint 1023) = inl 1023.
Proof.
  apply (ByteCount_below_unit 1023). split; [discriminate | reflexivity].
Defined.

(** *** The polling loop, read backwards *)

Lemma poll_None (fuel : nat) (w : World) (i : nat) (off : Z) :
  poll fuel w i off = None <->
  (forall j, (j < fuel)%nat -> quiet_round w off (i + j)).
Proof.
  revert i. induction fuel as [|fuel IH]; intros i.
  - split; [intros _ j Hj; lia | reflexivity].
  - cbn [poll]. split.
    + intros H j Hj.
      destruct (ctx_done (w i)) eqn:Hc; [discriminate|].
      destruct (parseLogPart (request (w i)) off) as [[[[c t] tot] part] e] eqn:Hp.
      destruct c; [discriminate|].
      destruct (poll fuel w (S i) off) as [[r evs]|] eqn:E; [discriminate|].
      destruct j as [|j].
      * rewrite Nat.add_0_r. split; [exact Hc | rewrite Hp; reflexivity].
      * replace (i + S j)%nat with (S i + j)%nat by lia.
        apply (proj1 (IH (S i)) E). lia.
    + intros H. destruct (H O ltac:(lia)) as [Hc Hq]. rewrite Nat.add_0_r in Hc, Hq.
      rewrite Hc.
      destruct (parseLogPart (request (w i)) off) as [[[[c t] tot] part] e].
      simpl in Hq. subst c.
      assert (E : poll fuel w (S i) off = None).
      { apply IH. intros j Hj. replace (S i + j)%nat with (i + S j)%nat by lia.
        apply H. lia. }
      rewrite E. reflexivity.
Qed.

Lemma poll_Some_inv (fuel : nat) (w : World) (i : nat) (off : Z)
      (r : PollResult) (evs : list event) :
  poll fuel w i off = Some (r, evs) ->
  exists k,
    (k < fuel)%nat
    /\ (forall j, (j < k)%nat -> quiet_round w off (i + j))
    /\ evs = rounds k ++ last_round r
    /\ match r with
       | Interrupted => ctx_done (w (i + k)%nat) = true
       | Cleared tot part e =>
           ctx_done (w (i + k)%nat) = false
           /\ exists t, parseLogPart (request (w (i + k)%nat)) off
                        = (true, t, tot, part, e)
       end.
Proof.
  revert i r evs. induction fuel as [|fuel IH]; intros i r evs H; [discriminate|].
  cbn [poll] in H. destruct (ctx_done (w i)) eqn:Hc.
  - inversion H. subst. exists O. rewrite Nat.add_0_r.
    split; [lia|]. split; [intros j Hj; lia|]. split; [reflexivity | exact Hc].
  - destruct (parseLogPart (request (w i)) off) as [[[[c t] tot] part] e] eqn:Hp.
    destruct c.
    + inversion H. subst. exists O. rewrite Nat.add_0_r.
      split; [lia|]. split; [intros j Hj; lia|]. split; [reflexivity|].
      split; [exact Hc | exists t; exact Hp].
    + destruct (poll fuel w (S i) off) as [[r' evs']|] eqn:E; [|discriminate].
      inversion H. subst. destruct (IH _ _ _ E) as (k & Hk & Hq & Hev & Hlast).
      exists (S k). split; [lia|]. split.
      * intros j Hj. destruct j as [|j].
        -- rewrite Nat.add_0_r. split; [exact Hc | rewrite Hp; reflexivity].
        -- replace (i + S j)%nat with (S i + j)%nat by lia. apply Hq. lia.
      * split; [simpl; rewrite Hev; reflexivity|].
        replace (i + S k)%nat with (S i + k)%nat by lia. exact Hlast.
Qed.

Lemma Read_None (fuel : nat) (w : World) (lr : LogReader) (p : bytes) :
  Read fuel w lr p = None <-> poll fuel w O (offset lr) = None.
Proof.
  split; intros H.
  - destruct (poll fuel w O (offset lr)) as [[r evs]|] eqn:E; [|reflexivity].
    destruct (Read_of_poll fuel w lr p r evs E) as [res [Hr _]]. congruence.
  - unfold Read. rewrite H. reflexivity.
Qed.

(** *** The reader *)

(** After the send, [Read] has not left its loop within [n] rounds exactly
    when each of the rounds [0 .. n-1] found the context not done and a
    request that the decoder did not clear. *)
Lemma Read_polling_iff_quiet (n : nat) (w : World) (lr : LogReader) (p : bytes) :
  Read n w lr p = None <-> keeps_polling w (offset lr) n.
Proof.
  rewrite Read_None, poll_None. unfold keeps_polling, quiet_round. simpl.
  split; intros H j Hj; apply H; exact Hj.
Qed.

(** X11.  A call of [Read] returns only after the request channel has taken
    the request and a round of the loop has found the context done or a
    request that the decoder cleared, every round before it having found
    neither.  As long as the channel has not taken the request, or every
    round so far found the context not done and a request not cleared (not
    served, or served with an error below the ceiling), the call has not
    returned. *)
Theorem LogReader_Read_returns_only_when_ended
    (n : nat) (ch : Channel) (w : World) (lr : LogReader) (p : bytes) :
  (forall out,
     LogReader_Read n ch w lr p = Some out ->
     (fst out < n)%nat /\ ch (fst out) = true
     /\ (forall i, (i < fst out)%nat -> ch i = false)
     /\ exists k,
          (k < n)%nat /\ keeps_polling w (offset lr) k
          /\ (ctx_done (w k) = true
              \/ clear_of (parseLogPart (request (w k)) (offset lr)) = true))
  /\ ((forall i, (i < n)%nat -> ch i = false) -> LogReader_Read n ch w lr p = None)
  /\ (keeps_polling w (offset lr) n -> LogReader_Read n ch w lr p = None).
Proof.
  split; [|split].
  - intros out H. unfold LogReader_Read in H.
    pose proof (send_spec n ch O) as Hs.
    destruct (send n ch O) as [j|]; [|discriminate].
    destruct (Read n w lr p) as [res|] eqn:E; [|discriminate].
    inversion H. subst out. simpl. destruct Hs as (Hj & Hc & Hb).
    split; [lia|]. split; [exact Hc|]. split; [intros i Hi; apply Hb; lia|].
    unfold Read in E.
    destruct (poll n w O (offset lr)) as [[r evs]|] eqn:Ep; [|discriminate].
    destruct (poll_Some_inv _ _ _ _ _ _ Ep) as (k & Hk & Hq & _ & Hlast).
    exists k. split; [exact Hk|]. split; [exact Hq|].
    destruct r as [|tot part e]; simpl in Hlast.
    + left. exact Hlast.
    + right. destruct Hlast as [_ [t Hp]]. rewrite Hp. reflexivity.
  - intros Hb. unfold LogReader_Read. rewrite (send_blocked n ch Hb). reflexivity.
  - intros Hq. unfold LogReader_Read.
    rewrite (proj2 (Read_polling_iff_quiet n w lr p) Hq).
    destruct (send n ch O); reflexivity.
Qed.

(** X12.  Whatever a [Read] returns, the buffer keeps its length, the count
    is between 0 and that length, the bytes of the buffer from the count on
    are untouched, and the file name of the reader is the same. *)
Theorem Read_stays_in_buffer
    (fuel : nat) (w : World) (lr : LogReader) (p : bytes) (res : ReadResult) :
  Read fuel w lr p = Some res ->
  length (rr_buffer res) = length p
  /\ 0 <= rr_n res <= len p
  /\ skipn (Z.to_nat (rr_n res)) (rr_buffer res) = skipn (Z.to_nat (rr_n res)) p
  /\ filename (rr_reader res) = filename lr.
Proof.
  unfold Read. intros H.
  destruct (poll fuel w O (offset lr)) as [[r evs]|]; [|discriminate].
  assert (Hz : 0 <= 0 <= len p) by (unfold len; lia).
  destruct r as [|tot part e].
  - inversion H. subst res. simpl. repeat split; lia.
  - destruct (negb (is_empty e)).
    + inversion H. subst res. simpl. repeat split; lia.
    + unfold copy in H. inversion H. subst res. simpl. rewrite Nat2Z.id.
      set (n := Nat.min (length p) (length part)).
      assert (Hl : length (firstn n part) = n).
      { rewrite length_firstn. unfold n. lia. }
      split.
      { rewrite length_app, Hl, length_skipn. unfold n. lia. }
      split; [unfold len, n; lia|]. split; [|reflexivity].
      rewrite skipn_app, Hl, Nat.sub_diag.
      rewrite (skipn_all2 (firstn n part)) by lia. reflexivity.
Qed.

Lemma Read_stays_in_buffer_witness :
  exists res,
    Read 5 (served_third_round (last_chunk 0)) (sample_reader 0 6) (str "..") = Some res
    /\ length (rr_buffer res) = length (str "..")
    /\ 0 <= rr_n res <= len (str "..")
    /\ skipn (Z.to_nat (rr_n res)) (rr_buffer res)
       = skipn (Z.to_nat (rr_n res)) (str "..")
    /\ filename (rr_reader res) = filename (sample_reader 0 6).
Proof.
  eexists. split; [reflexivity|].
  apply (Read_stays_in_buffer 5 (served_third_round (last_chunk 0)) (sample_reader 0 6)
           (str "..")).
  reflexivity.
Defined.



(** X14.  A [Read] that returns without error or with [io.EOF] has seen,
    with the context not done, a served request whose response is a first
    line of the format with [<from>] a numeral of the reader's offset, a
    newline and a payload; the bytes it copied are the first bytes of that
    payload and the total it stored is the [<total>] of that line. *)
Theorem Read_delivery_is_sound
    (fuel : nat) (w : World) (lr : LogReader) (p : bytes) (res : ReadResult) :
  Read fuel w lr p = Some res -> rr_err res = nil_error \/ rr_err res = io_EOF ->
  exists k line f t u payload,
    (k < fuel)%nat /\ keeps_polling w (offset lr) k /\ ctx_done (w k) = false
    /\ served (request (w k)) = true /\ err (request (w k)) = []
    /\ response (request (w k)) = line ++ newline :: payload
    /\ first_line_format line f t u
    /\ numeral f (offset lr)
    /\ numeral u (total (rr_reader res))
    /\ rr_n res = Z.min (len p) (len payload)
    /\ firstn (Z.to_nat (rr_n res)) (rr_buffer res)
       = firstn (Z.to_nat (rr_n res)) payload.
Proof.
  unfold Read. intros H Herr.
  destruct (poll fuel w O (offset lr)) as [[r evs]|] eqn:E; [|discriminate].
  destruct (poll_Some_inv _ _ _ _ _ _ E) as (k & Hk & Hq & _ & Hlast).
  destruct r as [|tot part e]; simpl in Hlast.
  { inversion H. subst res. simpl in Herr. destruct Herr; discriminate. }
  destruct Hlast as [Hc [t0 Hp]].
  destruct (is_empty e) eqn:Ee; simpl in H.
  2:{ inversion H. subst res. simpl in Herr. destruct Herr; discriminate. }
  destruct e; [|discriminate].
  destruct (served (request (w k))) eqn:Hs.
  2:{ rewrite (parseLogPart_unserved _ _ Hs) in Hp. discriminate. }
  destruct (parseLogPart_served _ (offset lr) Hs) as
    [[e' He']|(line & rest & f & t & u & to & tt' & He & Hr & Hfmt & Hf & Ht & Hu)].
  { destruct (parseLogPart_error _ _ e' Hs He') as [Hp' Hne].
    rewrite Hp' in Hp. inversion Hp. subst. contradiction. }
  rewrite (parseLogPart_chunk _ _ to tt' line rest f t u) in Hp by assumption.
  inversion Hp. subst.
  unfold copy in H. inversion H. subst res. simpl.
  exists k, line, f, t, u, part.
  split; [exact Hk|]. split; [exact Hq|]. split; [exact Hc|].
  split; [exact Hs|]. split; [exact He|]. split; [exact Hr|].
  split; [exact Hfmt|]. split; [exact Hf|]. split; [exact Hu|].
  split; [unfold len; apply Nat2Z.inj_min|].
  rewrite Nat2Z.id.
  set (n := Nat.min (length p) (length part)).
  assert (Hl : length (firstn n part) = n) by (rewrite length_firstn; unfold n; lia).
  rewrite firstn_app, Hl, Nat.sub_diag. simpl firstn at 2. rewrite app_nil_r.
  apply firstn_all2. lia.
Qed.

Lemma Read_delivery_is_sound_witness :
  exists k line f t u payload,
    (k < 5)%nat /\ keeps_polling (served_third_round (last_chunk 0)) 6 k
    /\ ctx_done (served_third_round (last_chunk 0) k) = false
    /\ served (request (served_third_round (last_chunk 0) k)) = true
    /\ err (request (served_third_round (last_chunk 0) k)) = []
    /\ response (request (served_third_round (last_chunk 0) k))
       = line ++ newline :: payload
    /\ first_line_format line f t u
    /\ numeral f 6
    /\ numeral u 10
    /\ 2 = Z.min (len (str "..")) (len payload)
    /\ firstn (Z.to_nat 2) (str "WX") = firstn (Z.to_nat 2) payload.
Proof.
  apply (Read_delivery_is_sound 5 (served_third_round (last_chunk 0)) (sample_reader 0 6)
           (str "..")
           (mkReadResult (sample_reader 10 8) (str "WX") 2 nil_error
              (EvSubmit (read_target (sample_reader 0 6))
               :: rounds 2 ++ [EvCtxCheck; EvDecode])));
    [reflexivity | left; reflexivity].
Defined.

Lemma Read_on_success (w : World) (lr : LogReader) (p P : bytes) (k fuel : nat)
      (to T : Z) :
  keeps_polling w (offset lr) k -> ctx_done (w k) = false ->
  parseLogPart (request (w k)) (offset lr) = (true, to, T, P, []) ->
  (k < fuel)%nat ->
  Read fuel w lr p
  = Some (mkReadResult
            (mkLogReader (filename lr) T
               (wrap64 (offset lr + Z.of_nat (Nat.min (length p) (length P)))))
            (firstn (Nat.min (length p) (length P)) P
             ++ skipn (Nat.min (length p) (length P)) p)
            (Z.of_nat (Nat.min (length p) (length P)))
            (if wrap64 (offset lr + Z.of_nat (Nat.min (length p) (length P))) =? T
             then io_EOF else nil_error)
            (EvSubmit (read_target lr) :: rounds k ++ [EvCtxCheck; EvDecode])).
Proof.
  intros Hk Hc Hp Hf. unfold Read.
  rewrite (poll_cleared k fuel w (offset lr) to T P [] Hk Hc Hp Hf). reflexivity.
Qed.

(** X15.  When the decoder reports success and the buffer or the payload is
    empty, [Read] returns a count of 0 with the offset and the buffer as they
    were; it still stores the reported total, and its error is [io.EOF] when
    the offset equals that total and [nil] otherwise, so a count of 0 without
    an error is a possible result. *)
Theorem Read_delivers_nothing
    (w : World) (lr : LogReader) (p P : bytes) (k fuel : nat) (to T : Z) :
  keeps_polling w (offset lr) k -> ctx_done (w k) = false ->
  parseLogPart (request (w k)) (offset lr) = (true, to, T, P, []) ->
  (k < fuel)%nat -> 0 <= offset lr < two64 -> p = [] \/ P = [] ->
  Read fuel w lr p
  = Some (mkReadResult (set_total lr T) p 0
            (if offset lr =? T then io_EOF else nil_error)
            (EvSubmit (read_target lr) :: rounds k ++ [EvCtxCheck; EvDecode])).
Proof.
  intros Hk Hc Hp Hf Ho He.
  rewrite (Read_on_success w lr p P k fuel to T Hk Hc Hp Hf).
  assert (Hn : Nat.min (length p) (length P) = O).
  { destruct He; subst; simpl; [reflexivity | apply Nat.min_0_r]. }
  rewrite Hn. simpl firstn. simpl skipn. simpl Z.of_nat.
  rewrite Z.add_0_r, wrap64_small by exact Ho. reflexivity.
Qed.

Lemma Read_delivers_nothing_witness :
  Read 5 (served_third_round
            (mkNodeRequest [] true (str "SUCCESS: 6-6/10" ++ [newline]) [] 0))
    (sample_reader 0 6) (str "....")
  = Some (mkReadResult (sample_reader 10 6) (str "....") 0 nil_error
            (EvSubmit (read_target (sample_reader 0 6))
             :: rounds 2 ++ [EvCtxCheck; EvDecode])).
Proof.
  apply (Read_delivers_nothing
           (served_third_round
              (mkNodeRequest [] true (str "SUCCESS: 6-6/10" ++ [newline]) [] 0))
           (sample_reader 0 6) (str "....") [] 2 5 6 10).
  - apply keeps_polling_two.
  - reflexivity.
  - reflexivity.
  - lia.
  - split; [discriminate | reflexivity].
  - right. reflexivity.
Defined.

(** X16.  [Read] followed by [Seek] from the end: after a [Read] in which
    the decoder reported a total [T] other than zero, a seek from the end
    with offset [d] puts the reader at [T + d] (in [uint64]) and returns
    that position, whatever the offset the [Read] left. *)
Theorem Read_then_Seek_from_end
    (w : World) (lr : LogReader) (p P : bytes) (k fuel : nat) (to T d : Z) :
  keeps_polling w (offset lr) k -> ctx_done (w k) = false ->
  parseLogPart (request (w k)) (offset lr) = (true, to, T, P, []) ->
  (k < fuel)%nat -> 0 < T ->
  exists res,
    Read fuel w lr p = Some res
    /\ Seek (rr_reader res) d SeekEnd
       = (mkLogReader (filename lr) T (wrap64 (T + d)), to_int64 (T + d), nil_error).
Proof.
  intros Hk Hc Hp Hf HT.
  rewrite (Read_on_success w lr p P k fuel to T Hk Hc Hp Hf).
  eexists. split; [reflexivity|]. simpl rr_reader.
  unfold Seek, SeekStart, SeekCurrent, SeekEnd. simpl.
  assert (Hpos : (0 <? T) = true) by (apply Z.ltb_lt; exact HT).
  rewrite Hpos. simpl. rewrite wrap64_int64_add, to_int64_wrap. reflexivity.
Qed.

Lemma Read_then_Seek_from_end_witness :
  exists res,
    Read 5 (served_third_round
              (mkNodeRequest [] true (str "SUCCESS: 0-4/5000" ++ newline :: str "ABCD")
                 [] 0))
      (sample_reader 0 0) (str "....") = Some res
    /\ Seek (rr_reader res) (-100) SeekEnd
       = (mkLogReader (str "erigon.log") 5000 4900, 4900, nil_error).
Proof.
  apply (Read_then_Seek_from_end
           (served_third_round
              (mkNodeRequest [] true (str "SUCCESS: 0-4/5000" ++ newline :: str "ABCD")
                 [] 0))
           (sample_reader 0 0) (str "....") (str "ABCD") 2 5 4 5000 (-100)).
  - apply keeps_polling_two.
  - reflexivity.
  - reflexivity.
  - lia.
  - reflexivity.
Defined.

(** *** Seek *)

(** X17.  [Seek] has no error for a position before the start: a negative
    offset from the start is stored as the [uint64] [2^64 + offset] and
    returned as it was given, with a [nil] error. *)
Theorem Seek_before_start (lr : LogReader) (off : Z) :
  - 2 ^ 63 <= off < 0 ->
  Seek lr off SeekStart = (set_offset lr (two64 + off), off, nil_error).
Proof.
  intros H.
  assert (Hw : wrap64 off = two64 + off).
  { unfold wrap64. symmetry. apply (Z.mod_unique _ _ (-1)); unfold_limits; lia. }
  unfold Seek, SeekStart. rewrite Z.eqb_refl. cbv zeta.
  replace (offset (set_offset lr (wrap64 off))) with (wrap64 off) by reflexivity.
  rewrite to_int64_wrap, to_int64_of_int64 by lia. rewrite Hw. reflexivity.
Qed.

Lemma Seek_before_start_witness :
  Seek (sample_reader 5000 0) (-1) SeekStart
  = (sample_reader 5000 18446744073709551615, -1, nil_error).
Proof.
  apply (Seek_before_start (sample_reader 5000 0) (-1)).
  split; [discriminate | reflexivity].
Defined.

(** X18.  A seek of 0 from the current position leaves the reader as it is
    and reports its offset: the offset itself when it is below 2^63, and the
    negative number [offset - 2^64] from there on. *)
Theorem Seek_tells_position (lr : LogReader) :
  0 <= offset lr < two64 ->
  Seek lr 0 SeekCurrent
  = (lr, (if offset lr <? 2 ^ 63 then offset lr else offset lr - two64), nil_error).
Proof.
  intros H. unfold Seek, SeekStart, SeekCurrent.
  change (1 =? 0) with false. change (1 =? 1) with true. cbv iota zeta.
  rewrite wrap64_int64_add, Z.add_0_r, wrap64_small by exact H.
  replace (set_offset lr (offset lr)) with lr by (destruct lr; reflexivity).
  unfold to_int64. rewrite wrap64_small by exact H. reflexivity.
Qed.

Lemma Seek_tells_position_witness :
  Seek (sample_reader 5000 4900) 0 SeekCurrent
  = (sample_reader 5000 4900, 4900, nil_error).
Proof.
  apply (Seek_tells_position (sample_reader 5000 4900)).
  split; [discriminate | reflexivity].
Defined.

(** X19.  Seeks compose by addition in [uint64]: a seek to [a] from the
    start followed by a seek of [b] from the current position leaves the
    reader where one seek to [a + b] would, and returns that position; no
    [Seek] changes the total or the file name. *)
Theorem Seek_start_then_current (lr : LogReader) (a b whence : Z) :
  Seek (fst (fst (Seek lr a SeekStart))) b SeekCurrent
  = (set_offset lr (wrap64 (a + b)), to_int64 (a + b), nil_error)
  /\ total (fst (fst (Seek lr a whence))) = total lr
  /\ filename (fst (fst (Seek lr a whence))) = filename lr.
Proof.
  split.
  - unfold Seek, SeekStart, SeekCurrent. simpl.
    rewrite wrap64_int64_add, to_int64_wrap.
    assert (Hw : wrap64 (wrap64 a + b) = wrap64 (a + b)).
    { unfold wrap64. apply Zplus_mod_idemp_l. }
    unfold to_int64. rewrite Hw. reflexivity.
  - unfold Seek. simpl.
    destruct (whence =? SeekStart); [split; reflexivity|].
    destruct (whence =? SeekCurrent); [split; reflexivity|].
    destruct (whence =? SeekEnd); [|split; reflexivity].
    destruct (0 <? total lr); split; reflexivity.
Qed.

(** *** The target of a chunk request *)

Lemma QueryEscape_cons (c : ascii) (s : bytes) :
  QueryEscape (c :: s) = QueryEscape [c] ++ QueryEscape s.
Proof. simpl. rewrite app_nil_r. reflexivity. Qed.

Lemma QueryEscape_byte_safe (c : ascii) : forallb query_safe (QueryEscape [c]) = true.
Proof. destruct c as [[] [] [] [] [] [] [] []]; reflexivity. Qed.

Lemma QueryEscape_safe (s : bytes) : forallb query_safe (QueryEscape s) = true.
Proof.
  induction s as [|c s IH]; [reflexivity|].
  rewrite QueryEscape_cons, forallb_app, QueryEscape_byte_safe, IH. reflexivity.
Qed.

Lemma query_safe_excludes (s : bytes) (c : ascii) :
  forallb query_safe s = true -> query_safe c = false -> ~ In c s.
Proof.
  intros Hs Hc Hin. rewrite forallb_forall in Hs. apply Hs in Hin. congruence.
Qed.

(** X20.  The target that [Read] submits is one line whatever the file
    name: the escaped name holds only letters, digits and the bytes
    [-_.~+%], so no newline, space, [&], [=] or [?] of the name reaches the
    target, whose only newline is its last byte, right after the decimal
    digits of the offset. *)
Theorem read_target_is_one_line (lr : LogReader) :
  forallb query_safe (QueryEscape (filename lr)) = true
  /\ ~ In newline (QueryEscape (filename lr))
  /\ ~ In " "%char (QueryEscape (filename lr))
  /\ ~ In "&"%char (QueryEscape (filename lr))
  /\ ~ In "="%char (QueryEscape (filename lr))
  /\ ~ In "?"%char (QueryEscape (filename lr))
  /\ IndexByte (read_target lr) newline
     = Some (length (str "/logs/read?file=" ++ QueryEscape (filename lr)
                     ++ str "&offset=" ++ FormatUint (offset lr)))
  /\ digits (FormatUint (offset lr)).
Proof.
  pose proof (QueryEscape_safe (filename lr)) as Hs.
  split; [exact Hs|].
  assert (Hn : ~ In newline (QueryEscape (filename lr)))
    by (apply query_safe_excludes; [exact Hs | reflexivity]).
  split; [exact Hn|].
  split; [apply query_safe_excludes; [exact Hs | reflexivity]|].
  split; [apply query_safe_excludes; [exact Hs | reflexivity]|].
  split; [apply query_safe_excludes; [exact Hs | reflexivity]|].
  split; [apply query_safe_excludes; [exact Hs | reflexivity]|].
  split; [|apply FormatUint_digits].
  unfold read_target.
  replace (str "/logs/read?file=" ++ QueryEscape (filename lr) ++ str "&offset="
           ++ FormatUint (offset lr) ++ [newline])
    with ((str "/logs/read?file=" ++ QueryEscape (filename lr) ++ str "&offset="
           ++ FormatUint (offset lr)) ++ newline :: [])
    by (rewrite <- ?app_assoc; reflexivity).
  apply IndexByte_first.
  intros Hin.
  repeat (apply in_app_or in Hin; destruct Hin as [Hin|Hin]);
    try (revert Hin; apply digits_no_newline; apply FormatUint_digits);
    try (exact (Hn Hin));
    simpl in Hin; repeat (destruct Hin as [Hin|Hin]; [discriminate|]); exact Hin.
Qed.
